(** * Tour of Heroes: the data-access service, the list, detail and search views

    A shallow embedding of
      - src/app/hero.service.ts          (HeroService)
      - src/app/heroes/heroes.component.ts (HeroesComponent)
      - the hero-detail component        (HeroDetailComponent)
      - the hero-search component        (HeroSearchComponent)
    together with the part of RxJS and of the Angular HttpClient they rely
    on: cold single-shot observables, [of], [tap], [map], [catchError],
    and the three operators of the search pipeline, [debounceTime],
    [distinctUntilChanged] and [switchMap]. *)

From Stdlib Require Import String Ascii List ZArith NArith Lia Bool.
From Stdlib Require Import DecimalString.
From Stdlib Require DecimalFacts DecimalPos.
Import ListNotations.
Open Scope string_scope.

Set Implicit Arguments.

(* ===================================================================== *)
(** ** JavaScript strings and numbers *)
(* ===================================================================== *)

(** A string is the sequence of its code units; the model covers the code
    units below 256.  The characters that [String.prototype.trim] strips
    (WhiteSpace and LineTerminator of ECMAScript) are, in that range,
    TAB, LF, VT, FF, CR, SPACE and NO-BREAK SPACE. *)
Definition isWhiteSpace (c : ascii) : bool :=
  let n := nat_of_ascii c in
  ((9 <=? n)%nat && (n <=? 13)%nat) || (n =? 32)%nat || (n =? 160)%nat.

Fixpoint trimStart (s : string) : string :=
  match s with
  | EmptyString => EmptyString
  | String c s' => if isWhiteSpace c then trimStart s' else s
  end.

Fixpoint trimEnd (s : string) : string :=
  match s with
  | EmptyString => EmptyString
  | String c s' =>
      match trimEnd s' with
      | EmptyString => if isWhiteSpace c then EmptyString else String c EmptyString
      | r => String c r
      end
  end.

(** [s.trim()] *)
Definition trim (s : string) : string := trimEnd (trimStart s).

(** A string that is empty or made of white space only. *)
Fixpoint blank (s : string) : bool :=
  match s with
  | EmptyString => true
  | String c s' => isWhiteSpace c && blank s'
  end.

(** [!s] on a string: the empty string is the only falsy one. *)
Definition falsy (s : string) : bool :=
  match s with EmptyString => true | _ => false end.

(** [`${n}`] for an integer [n]: decimal digits, with a minus sign below 0.
    This is what JavaScript prints for the integers that a number holds
    exactly, those of [safeInteger]; larger numbers are printed with
    fewer digits or with an exponent, and the model does not cover them. *)
Definition show (n : Z) : string := NilZero.string_of_int (Z.to_int n).

(** [Number.isSafeInteger(n)] *)
Definition safeInteger (n : Z) : Prop := (- 2 ^ 53 < n < 2 ^ 53)%Z.

(** The value of a decimal digit. *)
Definition digit (c : ascii) : option Z :=
  let n := nat_of_ascii c in
  if ((48 <=? n)%nat && (n <=? 57)%nat)%bool then Some (Z.of_nat (n - 48)) else None.

Fixpoint readDigits (s : string) (acc : Z) : option Z :=
  match s with
  | EmptyString => Some acc
  | String c s' =>
      match digit c with
      | Some d => readDigits s' (10 * acc + d)
      | None => None
      end
  end.

(** The integer that a decimal numeral without sign stands for: digits,
    at least one, and no zero in front of other digits. *)
Definition readNatural (s : string) : option Z :=
  match s with
  | EmptyString => None
  | String _ EmptyString => readDigits s 0
  | String c _ => if Ascii.eqb c "0" then None else readDigits s 0
  end.

(** The integer that a decimal numeral stands for: a numeral without
    sign, or a minus sign and a numeral without sign that is not zero.
    Every integer has one numeral. *)
Definition readInteger (s : string) : option Z :=
  match s with
  | String c s' =>
      if Ascii.eqb c "-"
      then match readNatural s' with
           | Some (Z.pos p) => Some (Z.neg p)
           | _ => None
           end
      else readNatural s
  | EmptyString => None
  end.

(** The double quote, as a one-character string. *)
Definition dquote : string := String "034"%char EmptyString.

(* ===================================================================== *)
(** ** Records, requests and the collaborators of the service *)
(* ===================================================================== *)

(** Modelled from the spec: the interface of hero.ts, which is not among
    the sources; "a plain data shape { id: integer, name: string }".
    A value of this type is a JavaScript object: [ref] is its identity,
    what [===] and [!==] compare. *)
Record Hero : Type := mkHero { ref : nat; id : Z; name : string }.

(** The argument of the only call of [addHero], the literal [{ name } as Hero]:
    an object that has a name and no id. *)
Record NewHero : Type := mkNewHero { newName : string }.

(** What [error.message] is read from. *)
Record HttpErrorResponse : Type := mkError { status : Z; message : string }.

Inductive Method : Type := GET | POST | PUT | DELETE.

Inductive Body : Type :=
| NoBody
| BodyNewHero (hero : NewHero)
| BodyHero (hero : Hero).

(** A call handed to the HttpClient: verb, URL, body, and whether the call
    passes [httpOptions] (the header Content-Type: application/json). *)
Record Request : Type := mkRequest {
  method : Method;
  url : string;
  body : Body;
  jsonHeader : bool
}.

(** Everything outside the service and the components that they write to:
    the message collector, the console, the HTTP backend, the browser
    history. *)
Record World : Type := mkWorld {
  messages : list string;            (* MessageService.messages *)
  console : list HttpErrorResponse;  (* arguments of console.error, oldest first *)
  requests : list Request;           (* requests sent, oldest first *)
  backs : nat                        (* calls of location.back() *)
}.

(** Modelled from the spec: MessageService.add of message.service.ts, which
    is not among the sources; "an append-only in-memory log of strings",
    "accepting free-text strings, with an add(message)". *)
Definition messageService_add (message : string) (w : World) : World :=
  mkWorld (messages w ++ [message]) (console w) (requests w) (backs w).

Definition console_error (e : HttpErrorResponse) (w : World) : World :=
  mkWorld (messages w) (console w ++ [e]) (requests w) (backs w).

Definition send (req : Request) (w : World) : World :=
  mkWorld (messages w) (console w) (requests w ++ [req]) (backs w).

(** [location.back()] *)
Definition location_back (w : World) : World :=
  mkWorld (messages w) (console w) (requests w) (S (backs w)).

(* ===================================================================== *)
(** ** Single-shot cold observables *)
(* ===================================================================== *)

(** What a subscriber of a single-shot observable is told: [Next v] stands
    for [next(v)] followed by [complete()], [Error e] for [error(e)]. *)
Inductive Notification (A : Type) : Type :=
| Next (v : A)
| Error (e : HttpErrorResponse).
Arguments Error {A} e.

(** An observable whose answers come from HTTP bodies of type [R] and whose
    values have type [A].  Nothing happens before it is subscribed to.
    Then [Do] runs a synchronous side effect, [Http] sends a request and
    waits for the backend's answer, [Settle] tells the subscriber. *)
Inductive Observable (R A : Type) : Type :=
| Settle (n : Notification A)
| Do (effect : World -> World) (k : Observable R A)
| Http (req : Request) (k : Notification R -> Observable R A).
Arguments Settle {R A} n.
Arguments Do {R A} effect k.
Arguments Http {R A} req k.

(** [of(v)] *)
Definition of_ {R A} (v : A) : Observable R A := Settle (Next v).

(** [http.get<R>(url)], [http.post<R>(url, body, options)], ... *)
Definition http {R} (req : Request) : Observable R R := Http req Settle.

(** [tap(f)]: runs [f] on the value and passes the value along. *)
Fixpoint tap {R A} (f : A -> World -> World) (o : Observable R A) : Observable R A :=
  match o with
  | Settle (Next v) => Do (f v) (Settle (Next v))
  | Settle (Error e) => Settle (Error e)
  | Do g k => Do g (tap f k)
  | Http req k => Http req (fun r => tap f (k r))
  end.

(** [map(f)] *)
Fixpoint map_ {R A B} (f : A -> B) (o : Observable R A) : Observable R B :=
  match o with
  | Settle (Next v) => Settle (Next (f v))
  | Settle (Error e) => Settle (Error e)
  | Do g k => Do g (map_ f k)
  | Http req k => Http req (fun r => map_ f (k r))
  end.

(** [catchError(h)]: an error is handed to [h], and the observable [h]
    returns takes over. *)
Fixpoint catchError {R A} (h : HttpErrorResponse -> Observable R A)
    (o : Observable R A) : Observable R A :=
  match o with
  | Settle (Next v) => Settle (Next v)
  | Settle (Error e) => h e
  | Do g k => Do g (catchError h k)
  | Http req k => Http req (fun r => catchError h (k r))
  end.

(** Where a subscription stands: settled, or waiting for the backend. *)
Inductive Progress (R A : Type) : Type :=
| Done (n : Notification A)
| Waiting (k : Notification R -> Observable R A).
Arguments Done {R A} n.
Arguments Waiting {R A} k.

(** [o.subscribe(...)]: runs [o] up to its first request or to its end. *)
Fixpoint subscribe {R A} (o : Observable R A) (w : World) : Progress R A * World :=
  match o with
  | Settle n => (Done n, w)
  | Do f k => subscribe k (f w)
  | Http req k => (Waiting k, send req w)
  end.

(** The backend answers a waiting subscription with [r]. *)
Definition deliver {R A} (p : Progress R A) (r : Notification R) (w : World)
  : Progress R A * World :=
  match p with
  | Done n => (Done n, w)
  | Waiting k => subscribe (k r) w
  end.

(* ===================================================================== *)
(** ** hero.service.ts *)
(* ===================================================================== *)

Module HeroService.

Definition heroesUrl : string := "api/heroes".

(** [log(message)] *)
Definition log (message : string) (w : World) : World :=
  messageService_add ("HeroService: " ++ message) w.

(** [handleError<T>(operation, result)]; a call that leaves [result] out
    passes [undefined], which is [None] in a type [option _]. *)
Definition handleError {R T} (operation : string) (result : T)
  : HttpErrorResponse -> Observable R T :=
  fun error =>
    Do (console_error error)
      (Do (log (operation ++ " failed: " ++ message error))
        (of_ result)).

Definition undefined {T} : option T := None.

Definition getHeroes : Observable (list Hero) (list Hero) :=
  catchError (handleError "getHeroes" [])
    (tap (fun _ => log "fetched heroes")
      (http (mkRequest GET heroesUrl NoBody false))).

(** [heroes[0]]: the first element, [undefined] on the empty array. *)
Definition first (heroes : list Hero) : option Hero := hd_error heroes.

Definition getHeroNo404 (id : Z) : Observable (list Hero) (option Hero) :=
  let url := heroesUrl ++ "/?id=" ++ show id in
  catchError (handleError ("getHero id=" ++ show id) undefined)
    (tap (fun h =>
            let outcome := match h with Some _ => "fetched" | None => "did not find" end in
            log (outcome ++ " hero id=" ++ show id))
      (map_ first
        (http (mkRequest GET url NoBody false)))).

(** An [Observable<Hero>] may deliver [undefined] (the fallback of
    [handleError<Hero>]): its values are [option Hero], and a body the
    backend sent is [Some] hero. *)
Definition getHero (id : Z) : Observable Hero (option Hero) :=
  let url := heroesUrl ++ "/" ++ show id in
  catchError (handleError ("getHero id=" ++ show id) undefined)
    (map_ Some
      (tap (fun _ => log ("fetched hero id=" ++ show id))
        (http (mkRequest GET url NoBody false)))).

Definition searchHeroes (term : string) : Observable (list Hero) (list Hero) :=
  if falsy (trim term) then
    of_ []
  else
    catchError (handleError "searchHeroes" [])
      (tap (fun x =>
              match x with
              | _ :: _ => log ("found heroes matching " ++ dquote ++ term ++ dquote)
              | [] => log ("no heroes matching " ++ dquote ++ term ++ dquote)
              end)
        (http (mkRequest GET (heroesUrl ++ "/?name=" ++ term) NoBody false))).

Definition addHero (hero : NewHero) : Observable Hero (option Hero) :=
  catchError (handleError "addHero" undefined)
    (map_ Some
      (tap (fun newHero => log ("added hero w/ id=" ++ show (id newHero)))
        (http (mkRequest POST heroesUrl (BodyNewHero hero) true)))).

Definition deleteHero (id : Z) : Observable Hero (option Hero) :=
  let url := heroesUrl ++ "/" ++ show id in
  catchError (handleError "deleteHero" undefined)
    (map_ Some
      (tap (fun _ => log ("deleted hero id=" ++ show id))
        (http (mkRequest DELETE url NoBody true)))).

(** The body of the answer to a PUT has type [any]: [R] is arbitrary. *)
Definition updateHero {R} (hero : Hero) : Observable R (option R) :=
  catchError (handleError "updateHero" undefined)
    (map_ Some
      (tap (fun _ => log ("updated hero id=" ++ show (id hero)))
        (http (mkRequest PUT heroesUrl (BodyHero hero) true)))).

End HeroService.

(* ===================================================================== *)
(** ** Components and their subscriptions *)
(* ===================================================================== *)

(** A subscription of a component with state [C] that waits for the
    backend: what the observable does with the answer, and the [next]
    callback given to [subscribe]. *)
Record Subscription (R A C : Type) : Type := mkSubscription {
  waitingFor : Notification R -> Observable R A;
  next : A -> C * World -> C * World
}.

(** The callback runs on a value.  No call of [subscribe] in the components
    passes an error callback: on [Error] nothing of the component runs. *)
Definition notify {A C} (next : A -> C * World -> C * World)
    (n : Notification A) (cw : C * World) : C * World :=
  match n with
  | Next v => next v cw
  | Error _ => cw
  end.

(** [o.subscribe(next)] called by a component in state [c]. *)
Definition subscribeWith {R A C} (o : Observable R A)
    (next : A -> C * World -> C * World) (c : C) (w : World)
  : C * World * option (Subscription R A C) :=
  match subscribe o w with
  | (Done n, w') => (notify next n (c, w'), None)
  | (Waiting k, w') => ((c, w'), Some (mkSubscription k next))
  end.

(** The backend answers the subscription [s] with [r]. *)
Definition answer {R A C} (s : Subscription R A C) (r : Notification R)
    (c : C) (w : World) : C * World * option (Subscription R A C) :=
  subscribeWith (waitingFor s r) (next s) c w.

(** [a === b] on values that are a Hero object or [undefined]. *)
Definition strictEq (a b : option Hero) : bool :=
  match a, b with
  | Some x, Some y => (ref x =? ref y)%nat
  | None, None => true
  | _, _ => false
  end.

(* --------------------------------------------------------------------- *)
(** *** heroes.component.ts *)

Module HeroesComponent.

(** [heroes: Hero[]]; an element is [None] where the array holds the
    [undefined] that a failed [addHero] delivers. *)
Record t : Type := mk { heroes : list (option Hero) }.

Definition init : t := mk [].

Definition getHeroes (c : t) (w : World) :=
  subscribeWith HeroService.getHeroes
    (fun heroes cw => (mk (map Some heroes), snd cw)) c w.

Definition ngOnInit (c : t) (w : World) := getHeroes c w.

(** [this.heroes.push(hero)] *)
Definition push (hero : option Hero) (c : t) : t := mk (heroes c ++ [hero]).

Definition add (name : string) (c : t) (w : World) :=
  let name := trim name in
  if falsy name then (c, w, None)
  else
    subscribeWith (HeroService.addHero (mkNewHero name))
      (fun hero cw => (push hero (fst cw), snd cw)) c w.

Definition delete (hero : Hero) (c : t) (w : World) :=
  let c := mk (filter (fun h => negb (strictEq h (Some hero))) (heroes c)) in
  subscribeWith (HeroService.deleteHero (id hero)) (fun _ cw => cw) c w.

End HeroesComponent.

(* --------------------------------------------------------------------- *)
(** *** The hero-detail component *)

Module HeroDetailComponent.

(** [hero: Hero | undefined] *)
Record t : Type := mk { hero : option Hero }.

(** [getHero()], from the number [id] that [Number(...)] made of the route
    parameter.  The conversion is not part of the model; the ids are the
    integers. *)
Definition getHero (id : Z) (c : t) (w : World) :=
  subscribeWith (HeroService.getHero id) (fun hero cw => (mk hero, snd cw)) c w.

Definition goBack (cw : t * World) : t * World :=
  (fst cw, location_back (snd cw)).

Definition save {R} (c : t) (w : World)
  : t * World * option (Subscription R (option R) t) :=
  match hero c with
  | Some h => subscribeWith (HeroService.updateHero h) (fun _ cw => goBack cw) c w
  | None => (c, w, None)
  end.

End HeroDetailComponent.

(* ===================================================================== *)
(** ** The operators of the search pipeline *)
(* ===================================================================== *)

(** [debounceTime(dueTime)] remembers the latest value with the time at
    which its timer fires.  A new value replaces both: the timer starts
    again and the value that waited is dropped. *)
Definition Debounce : Type := option (string * N).

Definition debounce_next (dueTime now : N) (v : string) (_ : Debounce) : Debounce :=
  Some (v, (now + dueTime)%N).

(** The clock shows [now]: a timer that is due fires and emits its value. *)
Definition debounce_tick (now : N) (d : Debounce) : Debounce * option string :=
  match d with
  | Some (v, due) => if (due <=? now)%N then (None, Some v) else (d, None)
  | None => (None, None)
  end.

(** [distinctUntilChanged()] remembers the value it emitted last and drops
    a value that is [===] to it. *)
Definition distinct_next (v : string) (previous : option string)
  : option string * option string :=
  match previous with
  | Some p => if (p =? v)%string then (previous, None) else (Some v, Some v)
  | None => (Some v, Some v)
  end.

(** What the clock, the user and the backend do to a subscribed pipeline. *)
Inductive Event (R : Type) : Type :=
| Push (term : string)                      (* searchTerms.next(term) *)
| Elapse (ms : N)                           (* ms milliseconds pass *)
| Respond (request : nat) (r : Notification R).
    (* the backend answers the request at index [request] of [requests] *)
Arguments Push {R} term.
Arguments Elapse {R} ms.
Arguments Respond {R} request r.

(** What can be seen of a step of the pipeline. *)
Inductive Label (B : Type) : Type :=
| Passed (term : string)   (* debounceTime emitted term *)
| Queried (term : string)  (* switchMap called its function on term *)
| Result (v : B)           (* the pipeline emitted v downstream *)
| Failed (e : HttpErrorResponse). (* the pipeline ended with the error e *)
Arguments Passed {B} term.
Arguments Queried {B} term.
Arguments Result {B} v.
Arguments Failed {B} e.

Module Pipeline.
Section Pipeline.

Variables R B : Type.

(** The argument of [debounceTime] and the function given to [switchMap]. *)
Variable dueTime : N.
Variable project : string -> Observable R B.

(** A subscribed [searchTerms.pipe(debounceTime(dueTime),
    distinctUntilChanged(), switchMap(project))]. *)
Record t : Type := mk {
  now : N;                       (* the clock, in milliseconds *)
  pending : Debounce;            (* debounceTime *)
  previous : option string;      (* distinctUntilChanged *)
  inner : option (nat * (Notification R -> Observable R B));
    (* switchMap: the inner subscription, if it waits for the backend,
       with the index of the request it waits for *)
  stopped : bool;                (* the pipeline has ended with an error *)
  world : World
}.

Definition init (w : World) : t := mk 0 None None None false w.

(** The inner subscription of [switchMap] moves on: to a value, which
    goes downstream, to an error, which ends the pipeline, or to another
    request. *)
Definition advance (s : t) (pw : Progress R B * World) : t * list (Label B) :=
  match pw with
  | (Done (Next v), w) =>
      (mk (now s) (pending s) (previous s) None false w, [Result v])
  | (Done (Error e), w) =>
      (mk (now s) None (previous s) None true w, [Failed e])
  | (Waiting k, w) =>
      (mk (now s) (pending s) (previous s)
          (Some (length (requests w) - 1, k)) false w, [])
  end.

(** [switchMap(project)] on a value: the inner subscription there was is
    dropped, and [project term] is subscribed to. *)
Definition switchMap_next (term : string) (s : t) : t * list (Label B) :=
  let (s', ls) := advance s (subscribe (project term) (world s)) in
  (s', Queried term :: ls).

Definition distinctUntilChanged_next (term : string) (s : t) : t * list (Label B) :=
  match distinct_next term (previous s) with
  | (p, Some v) =>
      switchMap_next v (mk (now s) (pending s) p (inner s) (stopped s) (world s))
  | (p, None) =>
      (mk (now s) (pending s) p (inner s) (stopped s) (world s), [])
  end.

Definition debounceTime_tick (s : t) : t * list (Label B) :=
  match debounce_tick (now s) (pending s) with
  | (d, Some v) =>
      let (s', ls) :=
        distinctUntilChanged_next v
          (mk (now s) d (previous s) (inner s) (stopped s) (world s)) in
      (s', Passed v :: ls)
  | (d, None) =>
      (mk (now s) d (previous s) (inner s) (stopped s) (world s), [])
  end.

Definition step (s : t) (ev : Event R) : t * list (Label B) :=
  if stopped s then (s, [])
  else
    match ev with
    | Push term =>
        (mk (now s) (debounce_next dueTime (now s) term (pending s))
            (previous s) (inner s) (stopped s) (world s), [])
    | Elapse ms =>
        debounceTime_tick
          (mk (now s + ms) (pending s) (previous s) (inner s) (stopped s) (world s))
    | Respond request r =>
        match inner s with
        | Some (awaited, k) =>
            if (request =? awaited)%nat
            then advance s (subscribe (k r) (world s))
            else (s, [])
        | None => (s, [])
        end
    end.

Fixpoint run (s : t) (evs : list (Event R)) : t * list (Label B) :=
  match evs with
  | [] => (s, [])
  | ev :: evs' =>
      let (s1, l1) := step s ev in
      let (s2, l2) := run s1 evs' in
      (s2, (l1 ++ l2)%list)
  end.

End Pipeline.

Arguments init {R B} w.

End Pipeline.

(** The terms that passed [debounceTime], the terms [switchMap] called its
    function on, and the values emitted downstream, oldest first. *)
Fixpoint passed {B} (ls : list (Label B)) : list string :=
  match ls with
  | Passed term :: ls' => term :: passed ls'
  | _ :: ls' => passed ls'
  | [] => []
  end.

Fixpoint queried {B} (ls : list (Label B)) : list string :=
  match ls with
  | Queried term :: ls' => term :: queried ls'
  | _ :: ls' => queried ls'
  | [] => []
  end.

Fixpoint results {B} (ls : list (Label B)) : list B :=
  match ls with
  | Result v :: ls' => v :: results ls'
  | _ :: ls' => results ls'
  | [] => []
  end.

(* --------------------------------------------------------------------- *)
(** *** The hero-search component *)

Module HeroSearchComponent.

(** [heroes$], as [ngOnInit] builds it, once subscribed to. *)
Definition t : Type := Pipeline.t (list Hero) (list Hero).

Definition init (w : World) : t := Pipeline.init w.

Definition step : t -> Event (list Hero) -> t * list (Label (list Hero)) :=
  Pipeline.step 300 HeroService.searchHeroes.

Definition run : t -> list (Event (list Hero)) -> t * list (Label (list Hero)) :=
  Pipeline.run 300 HeroService.searchHeroes.

(** [search(term)] *)
Definition search (term : string) : Event (list Hero) := Push term.

End HeroSearchComponent.

(* ===================================================================== *)
(** * Properties *)
(* ===================================================================== *)

(** ** [trim] and blank strings *)

Lemma trimStart_blank (s : string) : blank s = true -> trimStart s = "".
Proof.
  induction s as [|c s IH]; simpl; [reflexivity|].
  intros H. apply andb_prop in H as [Hc Hs]. rewrite Hc. now apply IH.
Qed.

Lemma trimStart_not_blank (s : string) :
  blank s = false ->
  exists c s', trimStart s = String c s' /\ isWhiteSpace c = false.
Proof.
  induction s as [|c s IH]; simpl; [discriminate|].
  destruct (isWhiteSpace c) eqn:Hc; simpl.
  - exact IH.
  - intros _. now exists c, s.
Qed.

Lemma trimEnd_head (c : ascii) (s : string) :
  isWhiteSpace c = false -> trimEnd (String c s) <> "".
Proof.
  intros Hc. simpl. destruct (trimEnd s); [rewrite Hc|]; discriminate.
Qed.

(** [!term.trim()] holds of the blank strings and of no other. *)
Lemma falsy_trim (s : string) : falsy (trim s) = blank s.
Proof.
  unfold trim. destruct (blank s) eqn:Hb.
  - now rewrite trimStart_blank.
  - destruct (trimStart_not_blank s Hb) as (c & s' & -> & Hc).
    pose proof (@trimEnd_head c s' Hc) as Hne.
    destruct (trimEnd (String c s')); [congruence | reflexivity].
Qed.

Example trim_Wolverine : trim "  Wolverine  " = "Wolverine".
Proof. reflexivity. Qed.

Example trim_inner_space : trim "Mr. Nice " = "Mr. Nice".
Proof. reflexivity. Qed.

(** ** The data-access service *)

Module HeroServiceFacts.
Import HeroService.

(** The world after [handleError(operation, _)] has handled [e]. *)
Definition failureLogged (operation : string) (e : HttpErrorResponse) (w : World) : World :=
  mkWorld (messages w ++ ["HeroService: " ++ operation ++ " failed: " ++ message e])
          (console w ++ [e]) (requests w) (backs w).

Lemma searchHeroes_blank (term : string) :
  blank term = true -> searchHeroes term = of_ [].
Proof. intros H. unfold searchHeroes. now rewrite falsy_trim, H. Qed.

Lemma searchHeroes_query (term : string) :
  blank term = false ->
  searchHeroes term =
    catchError (handleError "searchHeroes" [])
      (tap (fun x =>
              match x with
              | _ :: _ => log ("found heroes matching " ++ dquote ++ term ++ dquote)
              | [] => log ("no heroes matching " ++ dquote ++ term ++ dquote)
              end)
        (http (mkRequest GET (heroesUrl ++ "/?name=" ++ term) NoBody false))).
Proof. intros H. unfold searchHeroes. now rewrite falsy_trim, H. Qed.

(** [o] sends [req] when subscribed to and nothing else happens then; when
    the transport fails, whatever the world has become, the subscriber is
    told the value [fallback], and the one line written names [operation]. *)
Definition failsTo {R A} (o : Observable R A) (req : Request) (fallback : A)
    (operation : string) : Prop :=
  forall (e : HttpErrorResponse) (w w1 : World),
    snd (subscribe o w) = send req w
    /\ deliver (fst (subscribe o w)) (Error e) w1
       = (Done (Next fallback), failureLogged operation e w1).

(** C3. A transport failure during list(), search() or get() reaches the
    caller as the fallback value of the operation, delivered as a value
    (the empty list for getHeroes and searchHeroes, undefined for getHero
    and getHeroNo404) and not as an error, and exactly one line is added
    to the message collector, which names the operation that failed. *)
Theorem transport_failure_fallback (id : Z) (term : string)
    (Hterm : blank term = false) :
  failsTo getHeroes (mkRequest GET "api/heroes" NoBody false) [] "getHeroes"
  /\ failsTo (searchHeroes term)
       (mkRequest GET ("api/heroes/?name=" ++ term) NoBody false) [] "searchHeroes"
  /\ failsTo (getHero id)
       (mkRequest GET ("api/heroes/" ++ show id) NoBody false) None
       ("getHero id=" ++ show id)
  /\ failsTo (getHeroNo404 id)
       (mkRequest GET ("api/heroes/?id=" ++ show id) NoBody false) None
       ("getHero id=" ++ show id).
Proof.
  rewrite (searchHeroes_query _ Hterm).
  repeat split; reflexivity.
Qed.

Lemma transport_failure_fallback_witness :
  let e := mkError 504 "Gateway Timeout" in
  let w := mkWorld [] [] [] 0 in
  blank "bat" = false
  /\ deliver (fst (subscribe (searchHeroes "bat") w)) (Error e) w
     = (Done (Next []),
        mkWorld ["HeroService: searchHeroes failed: Gateway Timeout"] [e] [] 0).
Proof.
  split; [reflexivity|].
  exact (proj2 (proj1 (proj2 (@transport_failure_fallback 7 "bat" eq_refl))
                  (mkError 504 "Gateway Timeout")
                  (mkWorld [] [] [] 0) (mkWorld [] [] [] 0))).
Defined.

(** C4. For a blank term searchHeroes sends nothing and delivers the empty
    list at once; for any other term it sends one GET to the filtered
    endpoint and delivers the matches, or the empty list when the
    transport fails. *)
Theorem searchHeroes_blank_or_query (term : string) (w : World) :
  if blank term
  then subscribe (searchHeroes term) w = (Done (Next []), w)
  else exists k,
      subscribe (searchHeroes term) w
        = (Waiting k, send (mkRequest GET ("api/heroes/?name=" ++ term) NoBody false) w)
      /\ (forall matches w1, fst (subscribe (k (Next matches)) w1) = Done (Next matches))
      /\ (forall e w1, fst (subscribe (k (Error e)) w1) = Done (Next [])).
Proof.
  destruct (blank term) eqn:Hb.
  - now rewrite searchHeroes_blank.
  - rewrite (searchHeroes_query _ Hb). eexists. split; [reflexivity|].
    split; intros; reflexivity.
Qed.

Example search_empty (w : World) :
  subscribe (searchHeroes "") w = (Done (Next []), w).
Proof. reflexivity. Qed.

Example search_spaces (w : World) :
  subscribe (searchHeroes "   ") w = (Done (Next []), w).
Proof. reflexivity. Qed.

(** [w'] is [w] with messages added at the end, all of them with the
    prefix of the service. *)
Definition addsTagged (w w' : World) : Prop :=
  exists new,
    messages w' = (messages w ++ new)%list
    /\ Forall (fun m => String.prefix "HeroService: " m = true) new.

(** Whatever the backend answers, and whatever the world is when [o] is
    subscribed to and when the answer comes, [o] only adds tagged
    messages. *)
Definition wellTagged {R A} (o : Observable R A) : Prop :=
  forall (w : World) (r : Notification R) (w1 : World),
    addsTagged w (snd (subscribe o w))
    /\ addsTagged w1 (snd (deliver (fst (subscribe o w)) r w1)).

Lemma addsTagged_refl (w w' : World) : messages w' = messages w -> addsTagged w w'.
Proof. intros H. exists []. rewrite app_nil_r. now split. Qed.

Lemma addsTagged_log (w w' : World) (m : string) :
  messages w' = (messages w ++ [("HeroService: " ++ m)%string])%list ->
  addsTagged w w'.
Proof.
  intros H. exists ["HeroService: " ++ m]. split; [exact H|].
  constructor; [destruct m; reflexivity | constructor].
Qed.

Ltac tagged :=
  solve [ apply addsTagged_refl; reflexivity
        | eapply addsTagged_log; reflexivity ].

Ltac well_tagged :=
  intros w r w1; split; [tagged|];
  destruct r as [v|e]; simpl; try tagged.

(** C8. Every message that an operation of the service adds to the message
    collector, when it succeeds and when it fails, starts with
    "HeroService: ". *)
Theorem messages_prefixed :
  wellTagged getHeroes
  /\ (forall id, wellTagged (getHeroNo404 id))
  /\ (forall id, wellTagged (getHero id))
  /\ (forall term, wellTagged (searchHeroes term))
  /\ (forall hero, wellTagged (addHero hero))
  /\ (forall id, wellTagged (deleteHero id))
  /\ (forall R hero, wellTagged (@updateHero R hero)).
Proof.
  split; [well_tagged|].
  split; [intros id; well_tagged; destruct v; simpl; tagged|].
  split; [intros id; well_tagged|].
  split; [|repeat (split; [intros ?; well_tagged|]); intros ? ?; well_tagged].
  intros term. destruct (blank term) eqn:Hb.
  - rewrite (searchHeroes_blank _ Hb). intros w r w1. split; tagged.
  - rewrite (searchHeroes_query _ Hb). well_tagged. destruct v; simpl; tagged.
Qed.

(** [o] sends exactly [req] when subscribed to, without a message; the
    answer [r] settles it, and exactly the message [line r] is added. *)
Definition oneMessage {R A} (o : Observable R A) (req : Request)
    (line : Notification R -> string) : Prop :=
  forall (w : World) (r : Notification R) (w1 : World),
    snd (subscribe o w) = send req w
    /\ exists n, deliver (fst (subscribe o w)) r w1
         = (Done n, mkWorld (messages w1 ++ [line r])
                      (match r with Next _ => console w1 | Error e => console w1 ++ [e] end)
                      (requests w1) (backs w1)).

(** The line of a successful answer, or the line of [handleError]. *)
Definition lineOf {R} (success : R -> string) (operation : string)
    (r : Notification R) : string :=
  match r with
  | Next v => "HeroService: " ++ success v
  | Error e => "HeroService: " ++ operation ++ " failed: " ++ message e
  end.

Ltac one_message :=
  intros w r w1; split; [reflexivity|];
  destruct r as [v|e]; simpl; eexists; reflexivity.

(** C9. Each operation that sends a request adds one message to the
    message collector when the answer is delivered, one on success and one
    on failure, and none before; a search for a blank term adds none. *)
Theorem one_message_per_result :
  oneMessage getHeroes (mkRequest GET "api/heroes" NoBody false)
    (lineOf (fun _ => "fetched heroes") "getHeroes")
  /\ (forall id,
        oneMessage (getHeroNo404 id)
          (mkRequest GET ("api/heroes/?id=" ++ show id) NoBody false)
          (lineOf (fun heroes =>
                     match heroes with
                     | _ :: _ => "fetched hero id=" ++ show id
                     | [] => "did not find hero id=" ++ show id
                     end) ("getHero id=" ++ show id)))
  /\ (forall id,
        oneMessage (getHero id)
          (mkRequest GET ("api/heroes/" ++ show id) NoBody false)
          (lineOf (fun _ => "fetched hero id=" ++ show id) ("getHero id=" ++ show id)))
  /\ (forall term,
        if blank term
        then forall w, subscribe (searchHeroes term) w = (Done (Next []), w)
        else oneMessage (searchHeroes term)
               (mkRequest GET ("api/heroes/?name=" ++ term) NoBody false)
               (lineOf (fun heroes =>
                          match heroes with
                          | _ :: _ => "found heroes matching " ++ dquote ++ term ++ dquote
                          | [] => "no heroes matching " ++ dquote ++ term ++ dquote
                          end) "searchHeroes"))
  /\ (forall hero,
        oneMessage (addHero hero)
          (mkRequest POST "api/heroes" (BodyNewHero hero) true)
          (lineOf (fun newHero => "added hero w/ id=" ++ show (id newHero)) "addHero"))
  /\ (forall id,
        oneMessage (deleteHero id)
          (mkRequest DELETE ("api/heroes/" ++ show id) NoBody true)
          (lineOf (fun _ => "deleted hero id=" ++ show id) "deleteHero"))
  /\ (forall R hero,
        oneMessage (@updateHero R hero)
          (mkRequest PUT "api/heroes" (BodyHero hero) true)
          (lineOf (fun _ => "updated hero id=" ++ show (id hero)) "updateHero")).
Proof.
  split; [one_message|].
  split.
  { intros id w r w1. split; [reflexivity|].
    destruct r as [[|h heroes]|e]; simpl; eexists; reflexivity. }
  split; [intros id; one_message|].
  split; [|repeat (split; [intros ?; one_message|]); intros ? ?; one_message].
  intros term. destruct (blank term) eqn:Hb.
  - intros w. now rewrite (searchHeroes_blank _ Hb).
  - rewrite (searchHeroes_query _ Hb). intros w r w1. split; [reflexivity|].
    destruct r as [[|h heroes]|e]; simpl; eexists; reflexivity.
Qed.

Example getHeroes_success (heroes : list Hero) (w w1 : World) :
  deliver (fst (subscribe getHeroes w)) (Next heroes) w1
  = (Done (Next heroes),
     mkWorld (messages w1 ++ ["HeroService: fetched heroes"])
             (console w1) (requests w1) (backs w1)).
Proof. reflexivity. Qed.

End HeroServiceFacts.

(** ** The list view *)

Lemma trimEnd_keeps_head (c : ascii) (s : string) :
  isWhiteSpace c = false -> exists r, trimEnd (String c s) = String c r.
Proof.
  intros Hc. simpl. destruct (trimEnd s) as [|c' r'].
  - rewrite Hc. now exists "".
  - now exists (String c' r').
Qed.

(** The trimmed string is blank exactly when the string is. *)
Lemma blank_trim (s : string) : blank (trim s) = blank s.
Proof.
  destruct (blank s) eqn:Hb.
  - pose proof (falsy_trim s) as H. rewrite Hb in H.
    destruct (trim s); [reflexivity | discriminate].
  - unfold trim. destruct (trimStart_not_blank s Hb) as (c & s' & -> & Hc).
    destruct (@trimEnd_keeps_head c s' Hc) as [r ->]. simpl. now rewrite Hc.
Qed.

(** ** Decimal numerals *)

Ltac eval_digit :=
  lazymatch goal with
  | |- context [digit ?c] =>
      let v := eval vm_compute in (digit c) in
      change (digit c) with v; cbv iota beta
  end.

Lemma readDigits_acc (d : Decimal.uint) :
  forall acc : positive,
    readDigits (NilEmpty.string_of_uint d) (Z.pos acc)
    = Some (Z.pos (Pos.of_uint_acc d acc)).
Proof.
  induction d; intros acc;
    cbn [NilEmpty.string_of_uint readDigits Pos.of_uint_acc]; [reflexivity| ..];
    eval_digit; rewrite <- IHd; f_equal; lia.
Qed.

Lemma readDigits_uint (d : Decimal.uint) :
  readDigits (NilEmpty.string_of_uint d) 0 = Some (Z.of_N (Pos.of_uint d)).
Proof.
  induction d; cbn [NilEmpty.string_of_uint readDigits Pos.of_uint];
    [reflexivity | eval_digit; exact IHd | ..];
    eval_digit; cbn [Z.of_N]; rewrite <- readDigits_acc; reflexivity.
Qed.

Lemma to_uint_head (p : positive) (l : Decimal.uint) : Pos.to_uint p <> Decimal.D0 l.
Proof.
  intros E. pose proof (DecimalPos.Unsigned.to_of (Pos.to_uint p)) as H.
  rewrite DecimalPos.Unsigned.of_to in H. cbn [N.to_uint] in H. rewrite E, DecimalFacts.unorm_D0 in H.
  unfold Decimal.unorm in H. destruct (Decimal.nzhead l) eqn:En; try discriminate H.
  - injection H as ->. exact (DecimalPos.Unsigned.to_uint_nonzero p E).
  - exact (DecimalFacts.nzhead_nonzero l _ En).
Qed.

Lemma readNatural_to_uint (p : positive) :
  readNatural (NilZero.string_of_uint (Pos.to_uint p)) = Some (Z.pos p).
Proof.
  pose proof (DecimalPos.Unsigned.of_to p) as Hp.
  pose proof (readDigits_uint (Pos.to_uint p)) as Hr. rewrite Hp in Hr.
  pose proof (to_uint_head p) as Hz.
  destruct (Pos.to_uint p) as [|u|u|u|u|u|u|u|u|u|u];
    [discriminate Hp | now elim (Hz u) | ..];
    unfold readNatural, NilZero.string_of_uint;
    cbn [NilEmpty.string_of_uint] in *;
    destruct (NilEmpty.string_of_uint u); exact Hr.
Qed.

(** Reading what [show] printed gives the integer back. *)
Lemma show_read (n : Z) : readInteger (show n) = Some n.
Proof.
  destruct n as [|p|p]; unfold show; cbn [Z.to_int NilZero.string_of_int].
  - reflexivity.
  - pose proof (readNatural_to_uint p) as Hr. pose proof (to_uint_head p) as Hz.
    pose proof (DecimalPos.Unsigned.to_uint_nonnil p) as Hn.
    destruct (Pos.to_uint p) as [|u|u|u|u|u|u|u|u|u|u];
      [now elim Hn | now elim (Hz u) | ..]; exact Hr.
  - unfold readInteger. cbn [Ascii.eqb]. simpl Ascii.eqb.
    now rewrite readNatural_to_uint.
Qed.

Example show_11 : show 11 = "11". Proof. reflexivity. Qed.
Example show_minus : show (-40) = "-40". Proof. reflexivity. Qed.
Example read_leading_zero : readInteger "011" = None. Proof. reflexivity. Qed.
Example read_empty : readInteger "" = None. Proof. reflexivity. Qed.
Example read_minus_zero : readInteger "-0" = None. Proof. reflexivity. Qed.
Example read_exponent : readInteger "1e+21" = None. Proof. reflexivity. Qed.

(** ** The two ends of a trimmed string *)

(** The last character of a string that is not empty. *)
Fixpoint lastChar (s : string) : option ascii :=
  match s with
  | EmptyString => None
  | String c EmptyString => Some c
  | String _ s' => lastChar s'
  end.

Definition firstChar (s : string) : option ascii :=
  match s with
  | EmptyString => None
  | String c _ => Some c
  end.

Lemma trimStart_split (s : string) :
  exists pre, s = pre ++ trimStart s /\ blank pre = true.
Proof.
  induction s as [|c s [pre [IH Hpre]]]; simpl.
  - now exists "".
  - destruct (isWhiteSpace c) eqn:Hc.
    + exists (String c pre). simpl. rewrite Hc, Hpre. split; [now rewrite <- IH|reflexivity].
    + now exists "".
Qed.

Lemma trimEnd_split (s : string) :
  exists post, s = trimEnd s ++ post /\ blank post = true.
Proof.
  induction s as [|c s [post [IH Hpost]]]; simpl.
  - now exists "".
  - destruct (trimEnd s) as [|c' r] eqn:Hr.
    + simpl in IH. subst post. destruct (isWhiteSpace c) eqn:Hc.
      * exists (String c s). simpl. now rewrite Hc, Hpost.
      * exists s. now split.
    + exists post. split; [|exact Hpost]. simpl. now rewrite IH at 1.
Qed.

Lemma trimEnd_lastChar (s : string) :
  match lastChar (trimEnd s) with
  | Some c => isWhiteSpace c = false
  | None => trimEnd s = ""
  end.
Proof.
  induction s as [|c s IH]; simpl; [reflexivity|].
  destruct (trimEnd s) as [|c' r] eqn:Hr.
  - destruct (isWhiteSpace c) eqn:Hc; simpl; [reflexivity | exact Hc].
  - simpl in *.
    destruct (match r with EmptyString => Some c' | String _ _ => lastChar r end);
      [exact IH | discriminate IH].
Qed.

Module HeroesComponentFacts.
Import HeroesComponent.

(** How many elements of [l] are the object [hero] itself. *)
Definition occurrences (hero : Hero) (l : list (option Hero)) : nat :=
  length (filter (fun h => strictEq h (Some hero)) l).

(** The elements of [l] that are not the object [hero], in their order. *)
Definition others (hero : Hero) (l : list (option Hero)) : list (option Hero) :=
  filter (fun h => negb (strictEq h (Some hero))) l.

(** The list of the component once [delete(hero)] has returned. *)
Definition afterDelete (hero : Hero) (c : t) (w : World) : list (option Hero) :=
  heroes (fst (fst (delete hero c w))).

Lemma length_others (hero : Hero) (l : list (option Hero)) :
  (length (others hero l) + occurrences hero l = length l)%nat.
Proof.
  unfold others, occurrences. induction l as [|h l IH]; simpl; [reflexivity|].
  destruct (strictEq h (Some hero)); simpl; lia.
Qed.

(** C5, as claimed: whatever the list and the record, [delete] makes the
    list one element shorter. *)
Definition delete_removes_exactly_one : Prop :=
  forall (c : t) (hero : Hero) (w : World),
    S (length (afterDelete hero c w)) = length (heroes c).

(** C5 fails for a record that is not in the list, although a record of the
    list has its id: nothing is removed. *)
Lemma delete_absent_record_removes_nothing : ~ delete_removes_exactly_one.
Proof.
  intros H.
  specialize (H (mk [Some (mkHero 1 11 "Mr. Nice")]) (mkHero 2 11 "Mr. Nice")
                (mkWorld [] [] [] 0)).
  discriminate H.
Qed.

(** C5, amended. [delete(record)] removes the elements of the local list
    that are the object [record] itself, all of them and nothing else: one
    element when the record is in the list once, none when it is not in
    it; an element that only has the id of the record stays. *)
Theorem delete_removes_by_identity (c : t) (hero : Hero) (w : World) :
  (forall h, In h (afterDelete hero c w)
             <-> In h (heroes c) /\ strictEq h (Some hero) = false)
  /\ (length (afterDelete hero c w) + occurrences hero (heroes c)
      = length (heroes c))%nat.
Proof.
  split.
  - intros h. unfold afterDelete. simpl. rewrite filter_In.
    now rewrite negb_true_iff.
  - exact (length_others hero (heroes c)).
Qed.

Example delete_same_id_other_object :
  let nice := mkHero 1 11 "Mr. Nice" in
  let twin := mkHero 2 11 "Mr. Nice" in
  afterDelete nice (mk [Some nice; Some twin]) (mkWorld [] [] [] 0) = [Some twin].
Proof. reflexivity. Qed.

(** C10. [delete(r)] leaves the elements of the local list that are not
    the object [r] as they are and in their order, and sends one request,
    a DELETE of api/heroes/ followed by the decimal numeral of [r.id],
    whether [r] is in the list or not; the answer to the request changes
    nothing in the list. *)
Theorem delete_frame (c : t) (hero : Hero) (w : World)
    (Hid : safeInteger (id hero)) :
  let digits := show (id hero) in
  others hero (afterDelete hero c w) = others hero (heroes c)
  /\ snd (fst (delete hero c w))
     = send (mkRequest DELETE ("api/heroes/" ++ digits) NoBody true) w
  /\ readInteger digits = Some (id hero)
  /\ match snd (delete hero c w) with
     | Some s =>
         forall (r : Notification Hero) (c1 : t) (w1 : World),
           fst (fst (answer s r c1 w1)) = c1
           /\ requests (snd (fst (answer s r c1 w1))) = requests w1
           /\ snd (answer s r c1 w1) = None
     | None => False
     end.
Proof.
  split; [|split; [|split]].
  - unfold afterDelete, others. simpl.
    induction (heroes c) as [|h l IH]; simpl; [reflexivity|].
    destruct (strictEq h (Some hero)) eqn:Hh; simpl; [|rewrite Hh; simpl];
      now rewrite IH.
  - reflexivity.
  - apply show_read.
  - simpl. intros r c1 w1. destruct r; repeat split.
Qed.

Lemma delete_frame_witness :
  let nice := mkHero 1 11 "Mr. Nice" in
  let bombasto := mkHero 2 13 "Bombasto" in
  let w := mkWorld [] [] [] 0 in
  safeInteger 13
  /\ others bombasto (afterDelete bombasto (mk [Some nice]) w) = [Some nice]
  /\ snd (fst (delete bombasto (mk [Some nice]) w))
     = mkWorld [] [] [mkRequest DELETE "api/heroes/13" NoBody true] 0
  /\ readInteger "13" = Some 13%Z.
Proof.
  assert (Hid : safeInteger 13) by (unfold safeInteger; lia).
  split; [exact Hid|].
  pose proof (@delete_frame (mk [Some (mkHero 1 11 "Mr. Nice")])
                (mkHero 2 13 "Bombasto") (mkWorld [] [] [] 0) Hid)
    as (H1 & H2 & H3 & _).
  split; [exact H1|]. split; [exact H2 | exact H3].
Defined.

Example delete_absent_record :
  let nice := mkHero 1 11 "Mr. Nice" in
  let bombasto := mkHero 2 13 "Bombasto" in
  let w := mkWorld [] [] [] 0 in
  fst (delete bombasto (mk [Some nice]) w)
  = (mk [Some nice],
     mkWorld [] [] [mkRequest DELETE "api/heroes/13" NoBody true] 0).
Proof. reflexivity. Qed.

(** C6. [add(name)] trims the name.  When the name is blank, and with it
    the trimmed name, nothing is sent and nothing changes.  Otherwise one
    request is sent, a POST to api/heroes of an object with the trimmed
    name: the name given without the white space at its two ends, so that
    it is not empty and starts and ends with a character that is no white
    space.  The list stays as it is until the answer; on success the
    record that the server returned, with the id it has, is appended to
    the list, and nothing else is. *)
Theorem add_trims_posts_appends (name : string) (c : t) (w : World) :
  if blank name
  then add name c w = (c, w, None)
  else
    match add name c w with
    | (c', w', Some s) =>
        c' = c
        /\ (exists sent pre post,
              w' = send (mkRequest POST "api/heroes"
                           (BodyNewHero (mkNewHero sent)) true) w
              /\ name = pre ++ sent ++ post
              /\ blank pre = true /\ blank post = true
              /\ (exists f, firstChar sent = Some f /\ isWhiteSpace f = false)
              /\ (exists l, lastChar sent = Some l /\ isWhiteSpace l = false))
        /\ forall (hero : Hero) (c1 : t) (w1 : World),
             fst (fst (answer s (Next hero) c1 w1)) = mk (heroes c1 ++ [Some hero])
             /\ requests (snd (fst (answer s (Next hero) c1 w1))) = requests w1
             /\ snd (answer s (Next hero) c1 w1) = None
    | _ => False
    end.
Proof.
  unfold add. rewrite falsy_trim.
  destruct (blank name) eqn:Hname; [reflexivity|].
  simpl. split; [reflexivity|]. split; [|repeat split].
  destruct (trimStart_split name) as [pre [Hpre Bpre]].
  destruct (trimEnd_split (trimStart name)) as [post [Hpost Bpost]].
  exists (trim name), pre, post.
  split; [reflexivity|].
  split; [unfold trim; now rewrite <- Hpost|].
  split; [exact Bpre|]. split; [exact Bpost|].
  destruct (trimStart_not_blank name Hname) as (f & s' & Hs & Hf).
  destruct (@trimEnd_keeps_head f s' Hf) as [r Hr].
  split.
  - exists f. unfold trim. rewrite Hs, Hr. now split.
  - pose proof (trimEnd_lastChar (trimStart name)) as Hl. unfold trim.
    destruct (lastChar (trimEnd (trimStart name))) as [l|] eqn:El.
    + now exists l.
    + rewrite Hs, Hr in Hl. discriminate Hl.
Qed.

Lemma add_trims_posts_appends_witness :
  let w := mkWorld [] [] [] 0 in
  blank "  Wolverine  " = false
  /\ match add "  Wolverine  " init w with
     | (c', w', Some s) =>
         c' = init
         /\ (exists sent pre post,
               w' = send (mkRequest POST "api/heroes"
                            (BodyNewHero (mkNewHero sent)) true) w
               /\ "  Wolverine  " = pre ++ sent ++ post
               /\ blank pre = true /\ blank post = true
               /\ (exists f, firstChar sent = Some f /\ isWhiteSpace f = false)
               /\ (exists l, lastChar sent = Some l /\ isWhiteSpace l = false))
         /\ forall (hero : Hero) (c1 : t) (w1 : World),
              fst (fst (answer s (Next hero) c1 w1)) = mk (heroes c1 ++ [Some hero])
              /\ requests (snd (fst (answer s (Next hero) c1 w1))) = requests w1
              /\ snd (answer s (Next hero) c1 w1) = None
     | _ => False
     end.
Proof.
  split; [reflexivity|].
  exact (add_trims_posts_appends "  Wolverine  " init (mkWorld [] [] [] 0)).
Defined.

Example add_Wolverine :
  let w := mkWorld [] [] [] 0 in
  fst (add "  Wolverine  " init w)
  = (init,
     mkWorld [] []
       [mkRequest POST "api/heroes" (BodyNewHero (mkNewHero "Wolverine")) true] 0).
Proof. reflexivity. Qed.

Example add_spaces (c : t) (w : World) : add "   " c w = (c, w, None).
Proof. reflexivity. Qed.

End HeroesComponentFacts.

(** ** The detail view *)

Module HeroDetailComponentFacts.
Import HeroDetailComponent.

(** C7. With a record loaded, [save()] sends one PUT of the record and
    does not navigate yet; when the call settles, with the answer of the
    server or with the fallback that replaces a transport failure,
    [location.back()] is called once. *)
Theorem save_navigates_back (R : Type) (h : Hero) (w : World) :
  match @save R (mk (Some h)) w with
  | (c', w', Some s) =>
      c' = mk (Some h)
      /\ w' = send (mkRequest PUT "api/heroes" (BodyHero h) true) w
      /\ forall (r : Notification R) (c1 : t) (w1 : World),
           fst (fst (answer s r c1 w1)) = c1
           /\ backs (snd (fst (answer s r c1 w1))) = S (backs w1)
           /\ requests (snd (fst (answer s r c1 w1))) = requests w1
           /\ snd (answer s r c1 w1) = None
  | _ => False
  end.
Proof.
  simpl. repeat split; destruct r; reflexivity.
Qed.

Example save_failure :
  let h := mkHero 1 12 "Narco" in
  let w := mkWorld [] [] [] 0 in
  match @save Hero (mk (Some h)) w with
  | (_, w', Some s) =>
      snd (fst (answer s (Error (mkError 500 "Server Error")) (mk (Some h)) w'))
      = mkWorld ["HeroService: updateHero failed: Server Error"]
          [mkError 500 "Server Error"]
          [mkRequest PUT "api/heroes" (BodyHero h) true] 1
  | _ => False
  end.
Proof. reflexivity. Qed.

Example save_nothing_loaded (w : World) : @save Hero (mk None) w = (mk None, w, None).
Proof. reflexivity. Qed.

End HeroDetailComponentFacts.

(** ** The search view *)

Lemma passed_app {B} (l1 l2 : list (Label B)) :
  passed (l1 ++ l2) = (passed l1 ++ passed l2)%list.
Proof.
  induction l1 as [|[t|t|v|e] l1 IH]; simpl; [reflexivity| |assumption ..].
  now rewrite IH.
Qed.

Lemma queried_app {B} (l1 l2 : list (Label B)) :
  queried (l1 ++ l2) = (queried l1 ++ queried l2)%list.
Proof.
  induction l1 as [|[t|t|v|e] l1 IH]; simpl; [reflexivity|assumption| |assumption ..].
  now rewrite IH.
Qed.

Lemma last_default {A} (l : list A) (y d d' : A) : last (y :: l) d = last (y :: l) d'.
Proof.
  revert y. induction l as [|z l IH]; intros y; [reflexivity|].
  change (last (z :: l) d = last (z :: l) d'). apply IH.
Qed.

Lemma last_cons {A} (l : list A) (x d : A) : last (x :: l) d = last l x.
Proof.
  destruct l as [|y l]; [reflexivity|].
  change (last (y :: l) d = last (y :: l) x). apply last_default.
Qed.

Lemma run_app {R B} (dueTime : N) (project : string -> Observable R B)
    (s : Pipeline.t R B) (evs1 evs2 : list (Event R)) :
  Pipeline.run dueTime project s (evs1 ++ evs2)
  = let (s1, l1) := Pipeline.run dueTime project s evs1 in
    let (s2, l2) := Pipeline.run dueTime project s1 evs2 in
    (s2, (l1 ++ l2)%list).
Proof.
  revert s. induction evs1 as [|ev evs1 IH]; intros s; simpl.
  - now destruct (Pipeline.run dueTime project s evs2).
  - destruct (Pipeline.step dueTime project s ev) as [s1 l1].
    rewrite IH. destruct (Pipeline.run dueTime project s1 evs1) as [s2 l2].
    destruct (Pipeline.run dueTime project s2 evs2) as [s3 l3].
    now rewrite app_assoc.
Qed.

Section PipelineSteps.

Variables R B : Type.
Variable dueTime : N.
Variable project : string -> Observable R B.
Variable s : Pipeline.t R B.
Hypothesis running : Pipeline.stopped s = false.

Import Pipeline.

Lemma step_push (term : string) :
  step dueTime project s (Push term)
  = (mk (now s) (Some (term, (now s + dueTime)%N)) (previous s) (inner s)
        false (world s), []).
Proof. unfold step. now rewrite running. Qed.

Lemma step_elapse_wait (ms : N) (v : string) (due : N) :
  pending s = Some (v, due) -> (now s + ms < due)%N ->
  step dueTime project s (Elapse ms)
  = (mk (now s + ms) (Some (v, due)) (previous s) (inner s) false (world s), []).
Proof.
  intros Hp Hlt. unfold step, debounceTime_tick. rewrite running. simpl.
  rewrite Hp. simpl.
  now replace (due <=? now s + ms)%N with false by (symmetry; apply N.leb_gt; lia).
Qed.

Lemma step_elapse_fire (ms : N) (v : string) (due : N) :
  pending s = Some (v, due) -> (due <= now s + ms)%N ->
  step dueTime project s (Elapse ms)
  = let (s', ls) :=
      distinctUntilChanged_next project v
        (mk (now s + ms) None (previous s) (inner s) false (world s)) in
    (s', Passed v :: ls).
Proof.
  intros Hp Hle. unfold step, debounceTime_tick. rewrite running. simpl.
  rewrite Hp. simpl.
  now replace (due <=? now s + ms)%N with true by (symmetry; apply N.leb_le; lia).
Qed.

Lemma step_elapse_idle (ms : N) :
  pending s = None ->
  step dueTime project s (Elapse ms)
  = (mk (now s + ms) None (previous s) (inner s) false (world s), []).
Proof.
  intros Hp. unfold step, debounceTime_tick. rewrite running. simpl.
  now rewrite Hp.
Qed.

End PipelineSteps.

Module HeroSearchComponentFacts.
Import Pipeline HeroSearchComponent HeroService HeroServiceFacts.

(** What [switchMap] does with a term: it calls [searchHeroes] and, the
    call never failing at once, goes on. *)
Lemma switchMap_searchHeroes (term : string) (s : HeroSearchComponent.t) :
  exists s' ls,
    switchMap_next searchHeroes term s = (s', Queried term :: ls)
    /\ passed ls = [] /\ queried ls = []
    /\ pending s' = pending s /\ previous s' = previous s
    /\ stopped s' = false /\ now s' = now s.
Proof.
  unfold switchMap_next. destruct (blank term) eqn:Hb.
  - rewrite (searchHeroes_blank _ Hb). simpl. do 2 eexists. repeat split.
  - rewrite (searchHeroes_query _ Hb). simpl. do 2 eexists. repeat split.
Qed.

(** [distinctUntilChanged] applied to the list [l] of values, after it
    has emitted [previous]. *)
Fixpoint distinctUntilChanged (previous : option string) (l : list string) : list string :=
  match l with
  | [] => []
  | v :: l' =>
      match distinct_next v previous with
      | (p, Some v') => v' :: distinctUntilChanged p l'
      | (p, None) => distinctUntilChanged p l'
      end
  end.

Lemma distinctUntilChanged_searchHeroes (term : string) (s : HeroSearchComponent.t) :
  stopped s = false ->
  exists s' ls,
    distinctUntilChanged_next searchHeroes term s = (s', ls)
    /\ passed ls = []
    /\ queried ls = distinctUntilChanged (previous s) [term]
    /\ pending s' = pending s
    /\ previous s' = fst (distinct_next term (previous s))
    /\ stopped s' = false /\ now s' = now s.
Proof.
  intros Hs. unfold distinctUntilChanged_next. simpl.
  destruct (distinct_next term (previous s)) as [p [v|]] eqn:Hd.
  - assert (v = term) as ->.
    { unfold distinct_next in Hd. destruct (previous s) as [p0|];
        [destruct (p0 =? term)%string|]; congruence. }
    destruct (switchMap_searchHeroes term
                (mk (now s) (pending s) p (inner s) (stopped s) (world s)))
      as (s' & ls & -> & Hp & Hq & H1 & H2 & H3 & H4).
    exists s', (Queried term :: ls). simpl. rewrite Hq. repeat split; assumption.
  - do 2 eexists. simpl. repeat split. assumption.
Qed.

(** A run of keystrokes: a first term, then terms that each follow the one
    before after [fst] milliseconds, then [quiet] milliseconds without a
    keystroke. *)
Record Burst : Type := mkBurst {
  first : string;
  rest : list (N * string);
  quiet : N
}.

(** The pushes of a burst are less than 300 ms apart, and the burst ends
    with at least 300 ms of silence. *)
Definition isBurst (b : Burst) : Prop :=
  Forall (fun gt => (fst gt < 300)%N) (rest b) /\ (300 <= quiet b)%N.

Definition lastTerm (b : Burst) : string := last (map snd (rest b)) (first b).

Definition keystrokes (l : list (N * string)) : list (Event (list Hero)) :=
  flat_map (fun gt => [Elapse (fst gt); search (snd gt)]) l.

Definition typing (b : Burst) : list (Event (list Hero)) :=
  (search (first b) :: keystrokes (rest b) ++ [Elapse (quiet b)])%list.

Lemma burst_tail (l : list (N * string)) (q : N) :
  forall (cur : string) (s : HeroSearchComponent.t),
    Forall (fun gt => (fst gt < 300)%N) l -> (300 <= q)%N ->
    stopped s = false -> pending s = Some (cur, (now s + 300)%N) ->
    exists s' ls,
      run s (keystrokes l ++ [Elapse q]) = (s', ls)
      /\ passed ls = [last (map snd l) cur]
      /\ queried ls = distinctUntilChanged (previous s) [last (map snd l) cur]
      /\ previous s' = fst (distinct_next (last (map snd l) cur) (previous s))
      /\ stopped s' = false.
Proof.
  induction l as [|[gap term] l IH]; intros cur s Hl Hq Hs Hp.
  - simpl. unfold run. simpl. fold step.
    unfold step. rewrite (@step_elapse_fire _ _ 300 searchHeroes s Hs q cur _ Hp) by lia.
    destruct (@distinctUntilChanged_searchHeroes cur
                (mk (now s + q) None (previous s) (inner s) false (world s)) eq_refl)
      as (s' & ls & -> & H1 & H2 & _ & H4 & H5 & _).
    exists s', (Passed cur :: ls). split; [now rewrite app_nil_r|].
    simpl in *. rewrite H1. repeat split; assumption.
  - inversion Hl as [|? ? Hgap Hl']; subst. simpl in Hgap.
    set (s1 := mk (now s + gap) (Some (cur, (now s + 300)%N))
                  (previous s) (inner s) false (world s)).
    set (s2 := mk (now s + gap) (Some (term, (now s + gap + 300)%N))
                  (previous s) (inner s) false (world s)).
    destruct (IH term s2 Hl' Hq eq_refl eq_refl) as (s' & ls & Hrun & H1 & H2 & H3 & H4).
    exists s', ls.
    change (map snd ((gap, term) :: l)) with (term :: map snd l).
    rewrite last_cons.
    repeat split; try assumption.
    rewrite <- Hrun. unfold run. simpl.
    rewrite (@step_elapse_wait _ _ 300 searchHeroes s Hs gap cur _ Hp) by lia.
    fold s1. unfold search. rewrite (@step_push _ _ 300 searchHeroes s1 eq_refl term).
    simpl. fold s2. now destruct (Pipeline.run 300 searchHeroes s2 (keystrokes l ++ [Elapse q])).
Qed.

Lemma burst_run (b : Burst) (s : HeroSearchComponent.t) :
  isBurst b -> stopped s = false ->
  exists s' ls,
    run s (typing b) = (s', ls)
    /\ passed ls = [lastTerm b]
    /\ queried ls = distinctUntilChanged (previous s) [lastTerm b]
    /\ previous s' = fst (distinct_next (lastTerm b) (previous s))
    /\ stopped s' = false.
Proof.
  intros [Hgaps Hquiet] Hs. unfold typing, run. simpl. unfold search at 1.
  rewrite (@step_push _ _ 300 searchHeroes s Hs (first b)).
  set (s1 := mk (now s) (Some (first b, (now s + 300)%N)) (previous s) (inner s)
                false (world s)).
  destruct (@burst_tail (rest b) (quiet b) (first b) s1 Hgaps Hquiet eq_refl eq_refl)
    as (s' & ls & Hrun & H).
  unfold run in Hrun. rewrite Hrun. now exists s', ls.
Qed.

Lemma distinctUntilChanged_cons (p : option string) (v : string) (l : list string) :
  distinctUntilChanged p (v :: l)
  = (distinctUntilChanged p [v]
     ++ distinctUntilChanged (fst (distinct_next v p)) l)%list.
Proof. simpl. now destruct (distinct_next v p) as [p' [v'|]]. Qed.

Lemma bursts_run (bs : list Burst) :
  forall s : HeroSearchComponent.t,
    Forall isBurst bs -> stopped s = false ->
    passed (snd (run s (flat_map typing bs))) = map lastTerm bs
    /\ queried (snd (run s (flat_map typing bs)))
       = distinctUntilChanged (previous s) (map lastTerm bs).
Proof.
  induction bs as [|b bs IH]; intros s Hbs Hs; [now split|].
  inversion Hbs as [|? ? Hb Hbs']; subst.
  destruct (burst_run s Hb Hs) as (s1 & l1 & Hrun & Hp & Hq & Hprev & Hs1).
  destruct (IH s1 Hbs' Hs1) as [IHp IHq].
  change (flat_map typing (b :: bs)) with (typing b ++ flat_map typing bs)%list.
  unfold run in *. rewrite run_app, Hrun.
  destruct (Pipeline.run 300 searchHeroes s1 (flat_map typing bs)) as [s2 l2].
  cbn [snd] in *. rewrite passed_app, queried_app, Hp, Hq, IHp, IHq, Hprev.
  change (map lastTerm (b :: bs)) with (lastTerm b :: map lastTerm bs).
  split; [reflexivity|]. now rewrite (distinctUntilChanged_cons _ (lastTerm b) (map lastTerm bs)).
Qed.

(** C2, as claimed: of every burst the last term, and no other, passes
    [debounceTime], and each of these last terms is queried. *)
Definition every_burst_queries : Prop :=
  forall (bs : list Burst) (w : World),
    Forall isBurst bs ->
    let ls := snd (run (init w) (flat_map typing bs)) in
    passed ls = map lastTerm bs /\ queried ls = map lastTerm bs.

(** C2 fails when a burst ends on the term that the burst before ended on:
    a, then 300 ms later ab and a within 120 ms.  The second a passes
    [debounceTime] and is dropped by [distinctUntilChanged]. *)
Lemma burst_ending_on_same_term_not_queried : ~ every_burst_queries.
Proof.
  intros H.
  specialize (H [mkBurst "a" [] 300; mkBurst "ab" [(120%N, "a")] 300]
                (mkWorld [] [] [] 0)).
  assert (Hbs : Forall isBurst [mkBurst "a" [] 300; mkBurst "ab" [(120%N, "a")] 300]).
  { repeat constructor; simpl; lia. }
  destruct (H Hbs) as [_ Hq]. vm_compute in Hq. discriminate Hq.
Qed.

(** C2, amended. When the terms come in bursts, pushes less than 300 ms
    apart followed by 300 ms or more of silence, the terms that pass
    [debounceTime] are the last terms of the bursts, one for each burst in
    order; no earlier term of a burst passes.  The last term of a burst is
    queried unless it is the term that passed before it, which
    [distinctUntilChanged] drops. *)
Theorem only_last_term_of_burst (bs : list Burst) (w : World)
    (Hbs : Forall isBurst bs) :
  let ls := snd (run (init w) (flat_map typing bs)) in
  passed ls = map lastTerm bs
  /\ queried ls = distinctUntilChanged None (map lastTerm bs).
Proof. exact (@bursts_run bs (init w) Hbs eq_refl). Qed.

Lemma only_last_term_of_burst_witness :
  let bs := [mkBurst "b" [(100%N, "ba"); (250%N, "bat")] 300;
             mkBurst "bat" [] 1000;
             mkBurst "bats" [(299%N, "ba")] 450] in
  let ls := snd (run (init (mkWorld [] [] [] 0)) (flat_map typing bs)) in
  Forall isBurst bs
  /\ passed ls = ["bat"; "bat"; "ba"]
  /\ queried ls = ["bat"; "ba"].
Proof.
  assert (Hbs : Forall isBurst
                  [mkBurst "b" [(100%N, "ba"); (250%N, "bat")] 300;
                   mkBurst "bat" [] 1000;
                   mkBurst "bats" [(299%N, "ba")] 450]).
  { repeat constructor; simpl; lia. }
  split; [exact Hbs|].
  exact (@only_last_term_of_burst _ (mkWorld [] [] [] 0) Hbs).
Defined.

Lemma results_app {B} (l1 l2 : list (Label B)) :
  results (l1 ++ l2) = (results l1 ++ results l2)%list.
Proof.
  induction l1 as [|[t|t|v|e] l1 IH]; simpl; [reflexivity|assumption|assumption| |assumption].
  now rewrite IH.
Qed.

(** What [searchHeroes] delivers when the backend answers [r]. *)
Definition orEmpty (r : Notification (list Hero)) : list Hero :=
  match r with
  | Next heroes => heroes
  | Error _ => []
  end.

(** A term that is not the one emitted last passes [distinctUntilChanged]
    and, when it is not blank, leaves [switchMap] waiting for the request
    it sent, whatever [switchMap] waited for before. *)
Lemma query_sent (term : string) (s : HeroSearchComponent.t) :
  previous s <> Some term -> blank term = false ->
  exists k,
    distinctUntilChanged_next searchHeroes term s
    = (mk (now s) (pending s) (Some term)
          (Some (length (requests (world s)), k)) false
          (send (mkRequest GET ("api/heroes/?name=" ++ term) NoBody false) (world s)),
       [Queried term])
    /\ forall (r : Notification (list Hero)) (w : World),
         exists w', subscribe (k r) w = (Done (Next (orEmpty r)), w').
Proof.
  intros Hprev Hb. unfold distinctUntilChanged_next, distinct_next.
  assert (Hd : match previous s with
               | Some p => if (p =? term)%string then (previous s, None)
                           else (Some term, Some term)
               | None => (Some term, Some term)
               end = (Some term, Some term)).
  { destruct (previous s) as [p|]; [|reflexivity].
    destruct (String.eqb_spec p term); [congruence | reflexivity]. }
  rewrite Hd. unfold switchMap_next. rewrite (searchHeroes_query _ Hb). simpl.
  eexists. split.
  - rewrite length_app. simpl. rewrite Nat.add_sub. reflexivity.
  - intros [heroes|e] w; simpl; eexists; reflexivity.
Qed.

(** A blank term that is not the one emitted last is answered at once
    with the empty list, and [switchMap] waits for nothing. *)
Lemma query_blank (term : string) (s : HeroSearchComponent.t) :
  previous s <> Some term -> blank term = true ->
  distinctUntilChanged_next searchHeroes term s
  = (mk (now s) (pending s) (Some term) None false (world s),
     [Queried term; Result []]).
Proof.
  intros Hprev Hb. unfold distinctUntilChanged_next, distinct_next.
  assert (Hd : match previous s with
               | Some p => if (p =? term)%string then (previous s, None)
                           else (Some term, Some term)
               | None => (Some term, Some term)
               end = (Some term, Some term)).
  { destruct (previous s) as [p|]; [|reflexivity].
    destruct (String.eqb_spec p term); [congruence | reflexivity]. }
  rewrite Hd. unfold switchMap_next. now rewrite (searchHeroes_blank _ Hb).
Qed.

(** C1. Query A is sent, then query B for another term while A is still
    waiting for its answer, and the answer to A comes after the answer to
    B: what goes downstream is the result of B and nothing else. *)
Theorem stale_result_discarded
    (s : HeroSearchComponent.t) (a b : string)
    (ra rb : Notification (list Hero)) (q1 q2 d1 d2 d3 : N)
    (Hs : stopped s = false) (Hprev : previous s <> Some a)
    (Ha : blank a = false) (Hab : a <> b)
    (Hq1 : (300 <= q1)%N) (Hq2 : (300 <= q2)%N) :
  let A := length (requests (world s)) in
  let B := S A in
  let ls :=
    snd (run s ([search a; Elapse q1; search b; Elapse q2; Elapse d1]
                ++ (if blank b then [] else [Respond B rb])
                ++ [Elapse d2; Respond A ra; Elapse d3])) in
  queried ls = [a; b]
  /\ results ls = [if blank b then [] else orEmpty rb].
Proof.
  intros A B ls.
  assert (Hls : ls = [Passed a; Queried a; Passed b; Queried b;
                      Result (if blank b then [] else orEmpty rb)]);
    [|rewrite Hls; split; reflexivity].
  subst A B ls. unfold run, search.
  rewrite run_app. cbn [Pipeline.run].
  rewrite (@step_push _ _ 300 searchHeroes s Hs a).
  set (s1 := mk (now s) (Some (a, (now s + 300)%N)) (previous s) (inner s)
                false (world s)).
  rewrite (@step_elapse_fire _ _ 300 searchHeroes s1 eq_refl q1 a _ eq_refl)
    by (simpl; lia).
  cbn [now pending previous inner stopped world s1].
  destruct (@query_sent a (mk (now s + q1) None (previous s) (inner s) false (world s))
              Hprev Ha) as (kA & -> & HkA).
  cbn [now pending previous inner stopped world].
  set (wA := send (mkRequest GET ("api/heroes/?name=" ++ a) NoBody false) (world s)).
  set (s2 := mk (now s + q1) None (Some a) (Some (length (requests (world s)), kA))
                false wA).
  rewrite (@step_push _ _ 300 searchHeroes s2 eq_refl b).
  cbn [now pending previous inner stopped world s2].
  set (s3 := mk (now s + q1) (Some (b, (now s + q1 + 300)%N)) (Some a)
                (Some (length (requests (world s)), kA)) false wA).
  rewrite (@step_elapse_fire _ _ 300 searchHeroes s3 eq_refl q2 b _ eq_refl)
    by (simpl; lia).
  cbn [now pending previous inner stopped world s3].
  assert (Hprev' : Some a <> Some b) by congruence.
  assert (HlenA : length (requests wA) = S (length (requests (world s)))).
  { unfold wA. simpl. rewrite length_app. simpl. lia. }
  destruct (blank b) eqn:Hb.
  - rewrite (@query_blank b (mk (now s + q1 + q2) None (Some a)
                              (Some (length (requests (world s)), kA)) false wA)
               Hprev' Hb).
    cbn [now pending previous inner stopped world].
    set (s4 := mk (now s + q1 + q2) None (Some b) None false wA).
    rewrite (@step_elapse_idle _ _ 300 searchHeroes s4 eq_refl d1 eq_refl).
    cbn [now pending previous inner stopped world s4 app Pipeline.run].
    set (s5 := mk (now s + q1 + q2 + d1) None (Some b) None false wA).
    rewrite (@step_elapse_idle _ _ 300 searchHeroes s5 eq_refl d2 eq_refl).
    cbn [now pending previous inner stopped world s5].
    unfold Pipeline.step at 1. cbn [now pending previous inner stopped world].
    rewrite step_elapse_idle by reflexivity.
    reflexivity.
  - destruct (@query_sent b (mk (now s + q1 + q2) None (Some a)
                               (Some (length (requests (world s)), kA)) false wA)
                Hprev' Hb) as (kB & -> & HkB).
    cbn [now pending previous inner stopped world].
    rewrite HlenA.
    set (wB := send (mkRequest GET ("api/heroes/?name=" ++ b) NoBody false) wA).
    set (s4 := mk (now s + q1 + q2) None (Some b)
                  (Some (S (length (requests (world s))), kB)) false wB).
    rewrite (@step_elapse_idle _ _ 300 searchHeroes s4 eq_refl d1 eq_refl).
    cbn [now pending previous inner stopped world s4 app Pipeline.run].
    unfold Pipeline.step at 1. cbn [now pending previous inner stopped world].
    rewrite Nat.eqb_refl. destruct (HkB rb wB) as [wB' ->].
    cbn [advance now pending previous inner stopped world].
    set (s6 := mk (now s + q1 + q2 + d1) None (Some b) None false wB').
    rewrite (@step_elapse_idle _ _ 300 searchHeroes s6 eq_refl d2 eq_refl).
    cbn [now pending previous inner stopped world s6].
    unfold Pipeline.step at 1. cbn [now pending previous inner stopped world].
    rewrite step_elapse_idle by reflexivity.
    reflexivity.
Qed.

Lemma stale_result_discarded_witness :
  let nice := mkHero 1 11 "Mr. Nice" in
  let narco := mkHero 2 12 "Narco" in
  let ls :=
    snd (run (init (mkWorld [] [] [] 0))
           [search "n"; Elapse 300; search "na"; Elapse 300; Elapse 20;
            Respond 1 (Next [narco]); Elapse 50;
            Respond 0 (Next [nice; narco]); Elapse 10]) in
  queried ls = ["n"; "na"] /\ results ls = [[narco]].
Proof.
  assert (Hprev : previous (init (mkWorld [] [] [] 0)) <> Some "n") by discriminate.
  assert (Hab : "n" <> "na") by discriminate.
  assert (H300 : (300 <= 300)%N) by lia.
  exact (@stale_result_discarded (init (mkWorld [] [] [] 0)) "n" "na"
           (Next [mkHero 1 11 "Mr. Nice"; mkHero 2 12 "Narco"])
           (Next [mkHero 2 12 "Narco"]) 300 300 20 50 10
           eq_refl Hprev eq_refl Hab H300 H300).
Defined.

End HeroSearchComponentFacts.

(* ===================================================================== *)
(** * Further properties *)
(* ===================================================================== *)

(** ** What the service delivers on success *)

Module HeroServiceValues.
Import HeroService.

(** The value that the subscriber of [o] is told when the backend answers
    the request of [o] with the body [v]. *)
Definition delivered {R A} (o : Observable R A) (v : R) (w w1 : World)
  : Progress R A :=
  fst (deliver (fst (subscribe o w)) (Next v) w1).

(** X1. A successful answer reaches the subscriber as the server sent it:
    [tap] and [catchError] leave it alone.  [getHeroNo404] delivers the
    first element of the array it got, and [undefined] when the array is
    empty; what follows the first element is ignored. *)
Theorem success_delivers_body (w w1 : World) :
  (forall heroes, delivered getHeroes heroes w w1 = Done (Next heroes))
  /\ (forall id hero, delivered (getHero id) hero w w1 = Done (Next (Some hero)))
  /\ (forall id, delivered (getHeroNo404 id) [] w w1 = Done (Next None))
  /\ (forall id hero others,
        delivered (getHeroNo404 id) (hero :: others) w w1 = Done (Next (Some hero)))
  /\ (forall term heroes,
        delivered (searchHeroes term) heroes w w1
        = Done (Next (if blank term then [] else heroes)))
  /\ (forall hero newHero, delivered (addHero hero) newHero w w1 = Done (Next (Some newHero)))
  /\ (forall id hero, delivered (deleteHero id) hero w w1 = Done (Next (Some hero)))
  /\ (forall R hero (body : R),
        delivered (updateHero hero) body w w1 = Done (Next (Some body))).
Proof.
  repeat split; try reflexivity.
  intros term heroes. unfold delivered, searchHeroes. rewrite falsy_trim.
  destruct (blank term); reflexivity.
Qed.

End HeroServiceValues.

(** ** More on the list view *)

Module HeroesComponentMore.
Import HeroesComponent.

(** X3. On activation the list view sends one GET api/heroes and keeps its
    list until the answer.  The answer replaces the list as a whole: by
    the records of a successful answer, in their order, and by the empty
    list when the transport failed, which the component cannot tell from
    an empty answer. *)
Theorem ngOnInit_replaces_list (c : t) (w : World) :
  match ngOnInit c w with
  | (c', w', Some s) =>
      c' = c
      /\ w' = send (mkRequest GET "api/heroes" NoBody false) w
      /\ (forall (heroes : list Hero) (c1 : t) (w1 : World),
            fst (fst (answer s (Next heroes) c1 w1)) = mk (map Some heroes))
      /\ (forall (e : HttpErrorResponse) (c1 : t) (w1 : World),
            fst (fst (answer s (Error e) c1 w1)) = mk []
            /\ fst (fst (answer s (Error e) c1 w1))
               = fst (fst (answer s (Next []) c1 w1)))
  | _ => False
  end.
Proof. simpl. repeat split. Qed.

(** X4. When the POST of [add] fails, [undefined] is appended to the list:
    the list is one element longer, its last element is no record, and
    the failure is logged once. *)
Theorem add_failure_appends_undefined
    (name : string) (c : t) (w : World) (Hname : blank name = false) :
  match add name c w with
  | (_, _, Some s) =>
      forall (e : HttpErrorResponse) (c1 : t) (w1 : World),
        fst (fst (answer s (Error e) c1 w1)) = mk (heroes c1 ++ [None])
        /\ messages (snd (fst (answer s (Error e) c1 w1)))
           = (messages w1 ++ [("HeroService: addHero failed: " ++ message e)%string])%list
        /\ snd (answer s (Error e) c1 w1) = None
  | _ => False
  end.
Proof.
  unfold add. rewrite falsy_trim, Hname. simpl. repeat split.
Qed.

Lemma add_failure_appends_undefined_witness :
  match add "Magneta" init (mkWorld [] [] [] 0) with
  | (_, _, Some s) =>
      fst (fst (answer s (Error (mkError 500 "Server Error")) init (mkWorld [] [] [] 0)))
      = mk [None]
  | _ => False
  end.
Proof.
  pose proof (@add_failure_appends_undefined "Magneta" init (mkWorld [] [] [] 0) eq_refl)
    as H.
  destruct (add "Magneta" init (mkWorld [] [] [] 0)) as [[c' w'] [s|]]; [|exact H].
  exact (proj1 (H (mkError 500 "Server Error") init (mkWorld [] [] [] 0))).
Defined.

(** The list once [delete(hero)] has run on the list [l]. *)
Definition deleted (hero : Hero) (l : list (option Hero)) (w : World) : list (option Hero) :=
  heroes (fst (fst (delete hero (mk l) w))).

Lemma filter_all {A} (p : A -> bool) (l : list A) :
  Forall (fun x => p x = true) l -> filter p l = l.
Proof.
  induction 1 as [|x l Hx Hl IH]; simpl; [reflexivity|]. now rewrite Hx, IH.
Qed.

(** X5. A record that [add] appended is taken out again by [delete]: when the
    record that the server returned is not yet an element of the list,
    adding it and deleting it gives the list there was. *)
Theorem add_then_delete (name : string) (hero : Hero) (c : t) (w w1 w2 : World)
    (Hname : blank name = false)
    (Hfresh : Forall (fun h => strictEq h (Some hero) = false) (heroes c)) :
  match add name c w with
  | (c', _, Some s) =>
      deleted hero (heroes (fst (fst (answer s (Next hero) c' w1)))) w2 = heroes c
  | _ => False
  end.
Proof.
  unfold add. rewrite falsy_trim, Hname. simpl. unfold deleted. simpl.
  rewrite filter_app. simpl. rewrite Nat.eqb_refl. simpl. rewrite app_nil_r.
  apply filter_all. eapply Forall_impl; [|exact Hfresh].
  intros h Hh. now rewrite Hh.
Qed.

Lemma add_then_delete_witness :
  let nice := mkHero 1 11 "Mr. Nice" in
  let magma := mkHero 2 12 "Magma" in
  let w := mkWorld [] [] [] 0 in
  match add " Magma" (mk [Some nice]) w with
  | (c', _, Some s) =>
      deleted magma (heroes (fst (fst (answer s (Next magma) c' w)))) w = [Some nice]
  | _ => False
  end.
Proof.
  assert (Hfresh : Forall (fun h => strictEq h (Some (mkHero 2 12 "Magma")) = false)
                     [Some (mkHero 1 11 "Mr. Nice")]).
  { repeat constructor. }
  exact (@add_then_delete " Magma" (mkHero 2 12 "Magma")
           (mk [Some (mkHero 1 11 "Mr. Nice")])
           (mkWorld [] [] [] 0) (mkWorld [] [] [] 0) (mkWorld [] [] [] 0)
           eq_refl Hfresh).
Defined.

(** X6. Deleting a record again changes nothing in the list, and sends the
    DELETE request again: api/heroes/ followed by the decimal numeral of
    the id of the record. *)
Theorem delete_twice (hero : Hero) (c : t) (w w1 : World)
    (Hid : safeInteger (id hero)) :
  let c1 := fst (fst (delete hero c w)) in
  let digits := show (id hero) in
  fst (fst (delete hero c1 w1)) = c1
  /\ requests (snd (fst (delete hero c1 w1)))
     = (requests w1
        ++ [mkRequest DELETE ("api/heroes/" ++ digits)%string NoBody true])%list
  /\ readInteger digits = Some (id hero).
Proof.
  simpl. split; [|split; [reflexivity | apply show_read]]. f_equal.
  induction (heroes c) as [|h l IH]; simpl; [reflexivity|].
  destruct (strictEq h (Some hero)) eqn:Hh; simpl; [exact IH|].
  rewrite Hh. simpl. now rewrite IH.
Qed.

Lemma delete_twice_witness :
  let nice := mkHero 1 11 "Mr. Nice" in
  let narco := mkHero 2 12 "Narco" in
  let w := mkWorld [] [] [] 0 in
  let c1 := fst (fst (delete narco (mk [Some nice; Some narco]) w)) in
  safeInteger 12
  /\ c1 = mk [Some nice]
  /\ fst (fst (delete narco c1 w)) = c1
  /\ requests (snd (fst (delete narco c1 w)))
     = [mkRequest DELETE "api/heroes/12" NoBody true]
  /\ readInteger "12" = Some 12%Z.
Proof.
  assert (Hid : safeInteger 12) by (unfold safeInteger; lia).
  split; [exact Hid|]. split; [reflexivity|].
  exact (@delete_twice (mkHero 2 12 "Narco")
           (mk [Some (mkHero 1 11 "Mr. Nice"); Some (mkHero 2 12 "Narco")])
           (mkWorld [] [] [] 0) (mkWorld [] [] [] 0) Hid).
Defined.

(** X7. The name that [add] sends is the name given without the white space
    at its two ends: it is not empty, starts and ends with a character
    that is no white space, and the name given is this name between two
    blank strings. *)
Theorem add_sends_trimmed_name (name : string) (c : t) (w : World)
    (Hname : blank name = false) :
  exists sent pre post,
    requests (snd (fst (add name c w)))
    = (requests w ++ [mkRequest POST "api/heroes" (BodyNewHero (mkNewHero sent)) true])%list
    /\ name = pre ++ sent ++ post
    /\ blank pre = true /\ blank post = true
    /\ (exists f, firstChar sent = Some f /\ isWhiteSpace f = false)
    /\ (exists l, lastChar sent = Some l /\ isWhiteSpace l = false).
Proof.
  destruct (trimStart_split name) as [pre [Hpre Bpre]].
  destruct (trimEnd_split (trimStart name)) as [post [Hpost Bpost]].
  exists (trim name), pre, post.
  split; [unfold add; rewrite falsy_trim, Hname; reflexivity|].
  split; [unfold trim; now rewrite <- Hpost|].
  split; [exact Bpre|]. split; [exact Bpost|].
  destruct (trimStart_not_blank name Hname) as (f & s' & Hs & Hf).
  destruct (@trimEnd_keeps_head f s' Hf) as [r Hr].
  split.
  - exists f. unfold trim. rewrite Hs, Hr. now split.
  - pose proof (trimEnd_lastChar (trimStart name)) as Hl. unfold trim.
    destruct (lastChar (trimEnd (trimStart name))) as [l|] eqn:El.
    + now exists l.
    + rewrite Hs, Hr in Hl. discriminate Hl.
Qed.

Lemma add_sends_trimmed_name_witness :
  exists sent pre post,
    requests (snd (fst (add "  Dr. IQ " init (mkWorld [] [] [] 0))))
    = [mkRequest POST "api/heroes" (BodyNewHero (mkNewHero sent)) true]
    /\ "  Dr. IQ " = pre ++ sent ++ post
    /\ blank pre = true /\ blank post = true
    /\ (exists f, firstChar sent = Some f /\ isWhiteSpace f = false)
    /\ (exists l, lastChar sent = Some l /\ isWhiteSpace l = false).
Proof.
  exact (@add_sends_trimmed_name "  Dr. IQ " init (mkWorld [] [] [] 0) eq_refl).
Defined.

End HeroesComponentMore.

(** ** More on the detail view *)

Module HeroDetailComponentMore.
Import HeroDetailComponent.

(** X8. [getHero()] sends one GET of api/heroes/ followed by the decimal
    numeral of the id, and keeps the record of the view until the answer.
    A successful answer becomes the record of the view; a transport
    failure leaves the view without a record, whatever it held, and then
    [save()] sends nothing and does not navigate. *)
Theorem getHero_then_save (id : Z) (c : t) (w : World)
    (Hid : safeInteger id) :
  let digits := show id in
  readInteger digits = Some id
  /\ match getHero id c w with
     | (c', w', Some s) =>
         c' = c
         /\ w' = send (mkRequest GET ("api/heroes/" ++ digits) NoBody false) w
         /\ (forall (h : Hero) (c1 : t) (w1 : World),
               fst (fst (answer s (Next h) c1 w1)) = mk (Some h))
         /\ (forall (e : HttpErrorResponse) (c1 : t) (w1 w2 : World),
               fst (fst (answer s (Error e) c1 w1)) = mk None
               /\ @save Hero (fst (fst (answer s (Error e) c1 w1))) w2
                  = (mk None, w2, None))
     | _ => False
     end.
Proof. split; [apply show_read|]. simpl. repeat split. Qed.

Lemma getHero_then_save_witness :
  let w := mkWorld [] [] [] 0 in
  safeInteger 15
  /\ readInteger "15" = Some 15%Z
  /\ match getHero 15 (mk None) w with
     | (c', w', Some s) =>
         c' = mk None
         /\ w' = mkWorld [] [] [mkRequest GET "api/heroes/15" NoBody false] 0
         /\ (forall (h : Hero) (c1 : t) (w1 : World),
               fst (fst (answer s (Next h) c1 w1)) = mk (Some h))
         /\ (forall (e : HttpErrorResponse) (c1 : t) (w1 w2 : World),
               fst (fst (answer s (Error e) c1 w1)) = mk None
               /\ @save Hero (fst (fst (answer s (Error e) c1 w1))) w2
                  = (mk None, w2, None))
     | _ => False
     end.
Proof.
  assert (Hid : safeInteger 15) by (unfold safeInteger; lia).
  split; [exact Hid|].
  exact (@getHero_then_save 15 (mk None) (mkWorld [] [] [] 0) Hid).
Defined.

End HeroDetailComponentMore.

(** ** Invariants of the search pipeline *)

(** Each term of [l] differs from the term before it, and the first one
    from [previous]. *)
Fixpoint changes (previous : option string) (l : list string) : Prop :=
  match l with
  | [] => True
  | v :: l' => previous <> Some v /\ changes (Some v) l'
  end.

(** The last term of [l], and [previous] when [l] is empty. *)
Fixpoint lastOr (previous : option string) (l : list string) : option string :=
  match l with
  | [] => previous
  | v :: l' => lastOr (Some v) l'
  end.

(** The milliseconds that pass in a list of events. *)
Fixpoint elapsed {R} (evs : list (Event R)) : N :=
  match evs with
  | [] => 0
  | Elapse ms :: evs' => ms + elapsed evs'
  | _ :: evs' => elapsed evs'
  end.

(** The errors that ended the pipeline. *)
Fixpoint failures {B} (ls : list (Label B)) : list HttpErrorResponse :=
  match ls with
  | Failed e :: ls' => e :: failures ls'
  | _ :: ls' => failures ls'
  | [] => []
  end.

Lemma changes_app (l1 l2 : list string) :
  forall p, changes p l1 -> changes (lastOr p l1) l2 -> changes p (l1 ++ l2)%list.
Proof.
  induction l1 as [|v l1 IH]; intros p H1 H2; simpl in *; [exact H2|].
  destruct H1 as [Hv H1]. split; [exact Hv|]. now apply IH.
Qed.

Lemma lastOr_app (l1 l2 : list string) :
  forall p, lastOr p (l1 ++ l2)%list = lastOr (lastOr p l1) l2.
Proof. induction l1 as [|v l1 IH]; intros p; simpl; [reflexivity|]. apply IH. Qed.

Section PipelineInvariants.

Variables R B : Type.
Variable dueTime : N.
Variable project : string -> Observable R B.

Import Pipeline.

Lemma advance_labels (s : t R B) (pw : Progress R B * World) :
  queried (snd (advance s pw)) = []
  /\ passed (snd (advance s pw)) = []
  /\ previous (fst (advance s pw)) = previous s
  /\ now (fst (advance s pw)) = now s
  /\ (pending (fst (advance s pw)) = pending s
      \/ pending (fst (advance s pw)) = None).
Proof.
  destruct pw as [[[v|e]|k] w]; simpl; repeat split; auto.
Qed.

Lemma switchMap_labels (term : string) (s : t R B) :
  queried (snd (switchMap_next project term s)) = [term]
  /\ passed (snd (switchMap_next project term s)) = []
  /\ previous (fst (switchMap_next project term s)) = previous s
  /\ now (fst (switchMap_next project term s)) = now s
  /\ (pending (fst (switchMap_next project term s)) = pending s
      \/ pending (fst (switchMap_next project term s)) = None).
Proof.
  unfold switchMap_next.
  pose proof (advance_labels s (subscribe (project term) (world s))) as H.
  destruct (advance s (subscribe (project term) (world s))) as [s' ls].
  simpl in *. destruct H as (-> & H). repeat split; apply H.
Qed.

(** What passes [distinctUntilChanged] differs from what passed before. *)
Lemma distinct_labels (term : string) (s : t R B) :
  let s' := fst (distinctUntilChanged_next project term s) in
  let ls := snd (distinctUntilChanged_next project term s) in
  changes (previous s) (queried ls)
  /\ previous s' = lastOr (previous s) (queried ls)
  /\ passed ls = []
  /\ (length (queried ls) <= 1)%nat
  /\ now s' = now s
  /\ (pending s' = pending s \/ pending s' = None).
Proof.
  unfold distinctUntilChanged_next, distinct_next.
  destruct (previous s) as [p|] eqn:Hp.
  - destruct (String.eqb_spec p term) as [->|Hne]; simpl.
    + repeat split; auto.
    + pose proof (switchMap_labels term
                    (mk (now s) (pending s) (Some term) (inner s) (stopped s) (world s)))
        as (Hq & Hpa & Hprev & Hnow & Hpend).
      rewrite Hq. simpl in *. repeat split; auto. congruence.
  - pose proof (switchMap_labels term
                  (mk (now s) (pending s) (Some term) (inner s) (stopped s) (world s)))
      as (Hq & Hpa & Hprev & Hnow & Hpend).
    simpl. rewrite Hq. simpl in *. repeat split; auto. discriminate.
Qed.

(** What one event of duration [ms] (0 when it is no [Elapse]) does to the
    terms passed and queried, to the clock and to the timer. *)
Definition duration (ev : Event R) : N :=
  match ev with
  | Elapse ms => ms
  | _ => 0
  end.

(** [n] terms have passed [debounceTime] when the state is [s]: the clock
    shows [dueTime] for each of them, and a timer that runs is due
    [dueTime] later than that. *)
Definition paced (s : t R B) (n : nat) : Prop :=
  (dueTime * N.of_nat n <= now s)%N
  /\ forall v due, pending s = Some (v, due) -> (dueTime * N.of_nat (S n) <= due)%N.

Ltac five := split; [|split; [|split; [|split]]]; simpl; auto; try lia.

Lemma step_labels (s : t R B) (ev : Event R) :
  let s' := fst (step dueTime project s ev) in
  let ls := snd (step dueTime project s ev) in
  changes (previous s) (queried ls)
  /\ previous s' = lastOr (previous s) (queried ls)
  /\ (length (queried ls) <= length (passed ls))%nat
  /\ (now s' <= now s + duration ev)%N
  /\ forall n, paced s n -> paced s' (n + length (passed ls)).
Proof.
  unfold step. destruct (stopped s) eqn:Hs.
  { five. intros n. now rewrite Nat.add_0_r. }
  destruct ev as [term|ms|request r]; simpl.
  - five. intros n [Hn Hp]. rewrite Nat.add_0_r. split; [exact Hn|].
    simpl. intros v due [= <- <-]. lia.
  - unfold debounceTime_tick, debounce_tick. simpl.
    destruct (pending s) as [[v due]|] eqn:Hp.
    + destruct (N.leb_spec due (now s + ms)) as [Hdue|Hdue].
      * pose proof (distinct_labels v
                      (mk (now s + ms) None (previous s) (inner s) false (world s)))
          as (Hc & Hprev & Hpa & Hlen & Hnow & Hpend).
        destruct (distinctUntilChanged_next project v
                    (mk (now s + ms) None (previous s) (inner s) false (world s)))
          as [s' ls].
        simpl in *. rewrite Hpa. five.
        intros n [Hn Hd]. specialize (Hd v due Hp). split; [simpl; lia|].
        intros v' due' Hp'. destruct Hpend as [Hpend|Hpend]; congruence.
      * five. intros n [Hn Hd]. rewrite Nat.add_0_r. split; [simpl; lia|].
        simpl. intros v' due' [= <- <-]. now apply (Hd v due).
    + five. intros n [Hn Hd]. rewrite Nat.add_0_r. split; [simpl; lia|].
      simpl. discriminate.
  - destruct (inner s) as [[awaited k]|].
    + destruct (request =? awaited)%nat.
      * pose proof (advance_labels s (subscribe (k r) (world s)))
          as (Hq & Hpa & Hprev & Hnow & Hpend).
        rewrite Hq, Hpa. five.
        intros n [Hn Hd]. rewrite Nat.add_0_r. split; [lia|].
        intros v due Hp. apply Hd with v. destruct Hpend as [Hpend|Hpend]; congruence.
      * five. intros n. now rewrite Nat.add_0_r.
    + five. intros n. now rewrite Nat.add_0_r.
Qed.

Lemma run_labels (evs : list (Event R)) :
  forall s : t R B,
    let s' := fst (run dueTime project s evs) in
    let ls := snd (run dueTime project s evs) in
    changes (previous s) (queried ls)
    /\ previous s' = lastOr (previous s) (queried ls)
    /\ (length (queried ls) <= length (passed ls))%nat
    /\ (now s' <= now s + elapsed evs)%N
    /\ forall n, paced s n -> paced s' (n + length (passed ls)).
Proof.
  induction evs as [|ev evs IH]; intros s; simpl.
  - five. intros n. now rewrite Nat.add_0_r.
  - pose proof (step_labels s ev) as (Hc & Hprev & Hlen & Hnow & Hpaced).
    destruct (step dueTime project s ev) as [s1 l1].
    pose proof (IH s1) as (IHc & IHprev & IHlen & IHnow & IHpaced).
    destruct (run dueTime project s1 evs) as [s2 l2]. simpl in *.
    rewrite queried_app, passed_app, !length_app.
    split; [apply changes_app; [exact Hc | now rewrite <- Hprev]|].
    split; [now rewrite lastOr_app, <- Hprev|].
    split; [lia|].
    split; [destruct ev; simpl in *; lia|].
    intros n Hn. rewrite Nat.add_assoc. now apply IHpaced, Hpaced.
Qed.

End PipelineInvariants.

Module HeroSearchComponentMore.
Import Pipeline HeroSearchComponent HeroService HeroServiceFacts HeroSearchComponentFacts.

(** X9. Whatever the user types and whenever the backend answers, a term
    that is queried differs from the term queried before it: the same
    term is never queried twice in a row. *)
Theorem queries_change (w : World) (evs : list (Event (list Hero))) :
  changes None (queried (snd (run (init w) evs))).
Proof. exact (proj1 (run_labels 300 searchHeroes evs (init w))). Qed.

(** X10. [debounceTime(300)] paces the pipeline: in a run in which T
    milliseconds pass, at most T / 300 terms pass the debounce stage, and
    no more queries are made than terms pass. *)
Theorem debounce_rate (w : World) (evs : list (Event (list Hero))) :
  let ls := snd (run (init w) evs) in
  (300 * N.of_nat (length (passed ls)) <= elapsed evs)%N
  /\ (length (queried ls) <= length (passed ls))%nat.
Proof.
  pose proof (run_labels 300 searchHeroes evs (init w)) as (_ & _ & Hlen & Hnow & Hpaced).
  split; [|exact Hlen].
  assert (H0 : paced 300 (init w) 0).
  { split; simpl; [lia | discriminate]. }
  destruct (Hpaced 0%nat H0) as [Hn _].
  eapply N.le_trans; [exact Hn | exact Hnow].
Qed.

(** The continuation of a request of [searchHeroes]: it settles with a
    value on every answer, and sends nothing. *)
Definition answerable (k : Notification (list Hero) -> Observable (list Hero) (list Hero))
  : Prop :=
  forall (r : Notification (list Hero)) (w : World),
    exists w', subscribe (k r) w = (Done (Next (orEmpty r)), w')
               /\ requests w' = requests w.

(** The pipeline runs, and what [switchMap] waits for is the request that
    was sent last. *)
Definition sound (s : HeroSearchComponent.t) : Prop :=
  stopped s = false
  /\ match inner s with
     | Some (i, k) => S i = length (requests (world s)) /\ answerable k
     | None => True
     end.

Definition waiting (s : HeroSearchComponent.t) : nat :=
  match inner s with
  | Some _ => 1
  | None => 0
  end.

Lemma switchMap_sound (term : string) (s : HeroSearchComponent.t) :
  stopped s = false ->
  let s' := fst (switchMap_next searchHeroes term s) in
  let ls := snd (switchMap_next searchHeroes term s) in
  sound s' /\ failures ls = []
  /\ (length (results ls) + waiting s' <= length (queried ls))%nat.
Proof.
  intros Hs. unfold switchMap_next. destruct (blank term) eqn:Hb.
  - rewrite (searchHeroes_blank _ Hb). simpl. repeat split; auto.
  - rewrite (searchHeroes_query _ Hb). simpl. unfold sound, waiting. simpl.
    repeat split; auto.
    + rewrite length_app. simpl. lia.
    + intros [[|h heroes]|e] w; simpl; eexists; split; reflexivity.
Qed.

Lemma step_sound (s : HeroSearchComponent.t) (ev : Event (list Hero)) :
  sound s ->
  let s' := fst (step s ev) in
  let ls := snd (step s ev) in
  sound s' /\ failures ls = []
  /\ (length (results ls) + waiting s' <= length (queried ls) + waiting s)%nat.
Proof.
  intros [Hs Hi]. unfold step, Pipeline.step. rewrite Hs.
  destruct ev as [term|ms|request r]; simpl.
  - unfold sound, waiting. simpl. repeat split; auto.
  - unfold debounceTime_tick, debounce_tick. simpl.
    destruct (pending s) as [[v due]|].
    + destruct (due <=? now s + ms)%N; simpl.
      * unfold distinctUntilChanged_next, distinct_next. simpl.
        assert (Hdrop : forall p,
                  let s0 := mk (now s + ms) None p (inner s) false (world s) in
                  sound s0 /\ (waiting s0 <= waiting s)%nat).
        { intros p. unfold sound, waiting. simpl. repeat split; auto. }
        assert (Hpass :
                  sound (fst (switchMap_next searchHeroes v
                                (mk (now s + ms) None (Some v) (inner s) false (world s))))
                  /\ failures (snd (switchMap_next searchHeroes v
                                (mk (now s + ms) None (Some v) (inner s) false (world s)))) = []
                  /\ (length (results (snd (switchMap_next searchHeroes v
                                (mk (now s + ms) None (Some v) (inner s) false (world s)))))
                      + waiting (fst (switchMap_next searchHeroes v
                                (mk (now s + ms) None (Some v) (inner s) false (world s))))
                      <= length (queried (snd (switchMap_next searchHeroes v
                                (mk (now s + ms) None (Some v) (inner s) false (world s)))))
                         + waiting s)%nat).
        { pose proof (@switchMap_sound v
                        (mk (now s + ms) None (Some v) (inner s) false (world s)) eq_refl)
            as (H1 & H2 & H3).
          cbv zeta in H1, H2, H3.
          split; [exact H1|]. split; [exact H2|]. lia. }
        destruct (previous s) as [p|].
        -- destruct (p =? v)%string; simpl.
           ++ destruct (Hdrop (Some p)) as [H1 H2]. repeat split; auto.
           ++ destruct (switchMap_next searchHeroes v
                          (mk (now s + ms) None (Some v) (inner s) false (world s)))
                as [s' ls]. simpl in *. exact Hpass.
        -- destruct (switchMap_next searchHeroes v
                       (mk (now s + ms) None (Some v) (inner s) false (world s)))
             as [s' ls]. simpl in *. exact Hpass.
      * unfold sound, waiting. simpl. repeat split; auto.
    + unfold sound, waiting. simpl. repeat split; auto.
  - destruct (inner s) as [[awaited k]|] eqn:Hin.
    + destruct Hi as [Hlen Hk]. destruct (request =? awaited)%nat.
      * destruct (Hk r (world s)) as (w' & -> & Hreq). simpl.
        unfold sound, waiting. simpl. rewrite Hin. repeat split; auto.
      * simpl. unfold sound, waiting. rewrite Hin. repeat split; auto.
    + simpl. unfold sound, waiting. rewrite Hin. repeat split; auto.
Qed.

Lemma failures_app {B} (l1 l2 : list (Label B)) :
  failures (l1 ++ l2) = (failures l1 ++ failures l2)%list.
Proof.
  induction l1 as [|[t|t|v|e] l1 IH]; simpl; [reflexivity|assumption ..|].
  now rewrite IH.
Qed.

Lemma run_sound (evs : list (Event (list Hero))) :
  forall s : HeroSearchComponent.t,
    sound s ->
    let s' := fst (run s evs) in
    let ls := snd (run s evs) in
    sound s' /\ failures ls = []
    /\ (length (results ls) + waiting s' <= length (queried ls) + waiting s)%nat.
Proof.
  induction evs as [|ev evs IH]; intros s Hs; simpl.
  - repeat split; auto; apply Hs.
  - pose proof (step_sound ev Hs) as (Hs1 & Hf1 & Hr1).
    unfold run, step in *. simpl.
    destruct (Pipeline.step 300 searchHeroes s ev) as [s1 l1].
    pose proof (IH s1 Hs1) as (Hs2 & Hf2 & Hr2).
    destruct (Pipeline.run 300 searchHeroes s1 evs) as [s2 l2]. simpl in *.
    rewrite failures_app, results_app, queried_app, !length_app, Hf1, Hf2.
    repeat split; auto; try apply Hs2. lia.
Qed.

Lemma init_sound (w : World) : sound (init w).
Proof. now split. Qed.

(** X11. The search pipeline never ends with an error: whatever is typed and
    whatever the backend answers, failures included, no error goes
    downstream and the pipeline goes on. *)
Theorem pipeline_never_fails (w : World) (evs : list (Event (list Hero))) :
  stopped (fst (run (init w) evs)) = false
  /\ failures (snd (run (init w) evs)) = [].
Proof.
  pose proof (run_sound evs (init_sound w)) as ([Hs _] & Hf & _).
  now split.
Qed.

(** X12. No value goes downstream without a query: the pipeline has emitted
    at most as many results as it has made queries. *)
Theorem results_bounded_by_queries (w : World) (evs : list (Event (list Hero))) :
  (length (results (snd (run (init w) evs)))
   <= length (queried (snd (run (init w) evs))))%nat.
Proof.
  pose proof (run_sound evs (init_sound w)) as (_ & _ & H).
  simpl in H. unfold waiting at 2 in H. simpl in H. lia.
Qed.

(** X13. After any run, an answer to a request that is not the last request
    sent changes nothing: no value goes downstream and no message is
    written. *)
Theorem stale_answers_ignored
    (w : World) (evs : list (Event (list Hero)))
    (i : nat) (r : Notification (list Hero))
    (Hstale : S i <> length (requests (world (fst (run (init w) evs))))) :
  step (fst (run (init w) evs)) (Respond i r) = (fst (run (init w) evs), []).
Proof.
  pose proof (run_sound evs (init_sound w)) as ([Hs Hi] & _ & _).
  simpl in Hs, Hi. unfold step, Pipeline.step. rewrite Hs.
  destruct (inner (fst (run (init w) evs))) as [[awaited k]|]; [|reflexivity].
  destruct Hi as [Hlen _]. destruct (Nat.eqb_spec i awaited); [|reflexivity].
  subst. contradiction.
Qed.

Lemma stale_answers_ignored_witness :
  let evs := [search "a"; Elapse 300; search "ab"; Elapse 300; search "abc"; Elapse 300] in
  let s := fst (run (init (mkWorld [] [] [] 0)) evs) in
  length (requests (world s)) = 3%nat
  /\ step s (Respond 0 (Next [mkHero 1 11 "Mr. Nice"])) = (s, [])
  /\ step s (Respond 1 (Error (mkError 500 "Server Error"))) = (s, []).
Proof.
  split; [reflexivity|]. split.
  - apply (@stale_answers_ignored (mkWorld [] [] [] 0)
             [search "a"; Elapse 300; search "ab"; Elapse 300; search "abc"; Elapse 300]
             0 (Next [mkHero 1 11 "Mr. Nice"])).
    vm_compute. discriminate.
  - apply (@stale_answers_ignored (mkWorld [] [] [] 0)
             [search "a"; Elapse 300; search "ab"; Elapse 300; search "abc"; Elapse 300]
             1 (Error (mkError 500 "Server Error"))).
    vm_compute. discriminate.
Defined.

(** Terms that come 300 ms or more apart: a term and the silence after it. *)
Definition spaced (l : list (string * N)) : list (Event (list Hero)) :=
  flat_map (fun tq => [search (fst tq); Elapse (snd tq)]) l.

Lemma distinctUntilChanged_changes (l : list string) :
  forall p, changes p l -> distinctUntilChanged p l = l.
Proof.
  induction l as [|v l IH]; intros p Hl; simpl in *; [reflexivity|].
  destruct Hl as [Hv Hl]. unfold distinct_next.
  destruct p as [p|].
  - destruct (String.eqb_spec p v); [congruence|]. now rewrite IH.
  - now rewrite IH.
Qed.

(** X14. When the terms come 300 ms or more apart and each differs from the
    one before it, every term passes the debounce stage and is queried,
    once and in the order typed. *)
Theorem spaced_terms_all_queried (l : list (string * N)) (w : World)
    (Hgaps : Forall (fun tq => (300 <= snd tq)%N) l)
    (Hchanges : changes None (map fst l)) :
  let ls := snd (run (init w) (spaced l)) in
  passed ls = map fst l /\ queried ls = map fst l.
Proof.
  assert (Htrace : spaced l = flat_map typing (map (fun tq => mkBurst (fst tq) [] (snd tq)) l)).
  { unfold spaced. induction l as [|tq l IH]; simpl; [reflexivity|].
    inversion Hgaps; subst. destruct Hchanges as [_ Hc].
    f_equal. f_equal.
    clear - l. induction l as [|tq' l IH]; simpl; [reflexivity|]. now rewrite IH. }
  assert (Hbs : Forall isBurst (map (fun tq => mkBurst (fst tq) [] (snd tq)) l)).
  { apply Forall_map. eapply Forall_impl; [|exact Hgaps].
    intros tq Htq. split; [constructor | exact Htq]. }
  assert (Hlast : map lastTerm (map (fun tq => mkBurst (fst tq) [] (snd tq)) l) = map fst l).
  { rewrite map_map. reflexivity. }
  pose proof (@bursts_run _ (init w) Hbs eq_refl) as [Hp Hq].
  simpl. rewrite Htrace, Hp, Hq, Hlast.
  split; [reflexivity|]. now apply distinctUntilChanged_changes.
Qed.

Lemma spaced_terms_all_queried_witness :
  let l := [("b", 300%N); ("ba", 450%N); ("b", 300%N)] in
  let ls := snd (run (init (mkWorld [] [] [] 0)) (spaced l)) in
  passed ls = ["b"; "ba"; "b"] /\ queried ls = ["b"; "ba"; "b"].
Proof.
  assert (Hgaps : Forall (fun tq : string * N => (300 <= snd tq)%N)
                    [("b", 300%N); ("ba", 450%N); ("b", 300%N)]).
  { repeat constructor; simpl; lia. }
  assert (Hchanges : changes None (map fst [("b", 300%N); ("ba", 450%N); ("b", 300%N)])).
  { simpl. repeat split; discriminate. }
  exact (@spaced_terms_all_queried _ (mkWorld [] [] [] 0) Hgaps Hchanges).
Defined.

End HeroSearchComponentMore.

(** ** The service never tells an error *)

Module HeroServiceTotal.
Import HeroService HeroServiceFacts.

(** Whatever the backend answers, the subscriber of [o] is told a value. *)
Definition alwaysValue {R A} (o : Observable R A) : Prop :=
  forall (w : World) (r : Notification R) (w1 : World),
    exists v w', deliver (fst (subscribe o w)) r w1 = (Done (Next v), w').

Ltac always_value :=
  intros w r w1; destruct r as [v|e]; simpl; do 2 eexists; reflexivity.

(** X2. No operation of the service tells its subscriber an error: for every
    answer of the backend, a body or a failure, the subscriber gets a
    value, so that a [subscribe] without an error callback is enough. *)
Theorem service_never_errors :
  alwaysValue getHeroes
  /\ (forall id, alwaysValue (getHeroNo404 id))
  /\ (forall id, alwaysValue (getHero id))
  /\ (forall term, alwaysValue (searchHeroes term))
  /\ (forall hero, alwaysValue (addHero hero))
  /\ (forall id, alwaysValue (deleteHero id))
  /\ (forall R hero, alwaysValue (@updateHero R hero)).
Proof.
  split; [always_value|].
  split; [intros id; always_value|].
  split; [intros id; always_value|].
  split; [|repeat (split; [intros ?; always_value|]); intros ? ?; always_value].
  intros term. destruct (blank term) eqn:Hb.
  - rewrite (searchHeroes_blank _ Hb). intros w r w1. do 2 eexists. reflexivity.
  - rewrite (searchHeroes_query _ Hb). always_value.
Qed.

End HeroServiceTotal.
